(** * File Manager: a shallow embedding of [src/index.js]

    The program is a line-oriented shell over Node's [fs], [path], [os],
    [crypto] and [zlib] modules.  Its own code is the tokenizer, the
    [switch] that dispatches on the verb, and one handler per verb; these
    are embedded function by function, under the names of the source.

    What the handlers call is the platform: POSIX path resolution
    ([path.resolve], [path.parse]), the filesystem ([fs.lstat],
    [fs.writeFile], [fs.unlink], ...), file streams and their [pipe], the
    digest and the Brotli codec.  The platform is modelled in the first
    half of the file, from its documented POSIX behaviour; the codec, the
    digest and the host facts ([os.homedir()], [process.argv], ...) are
    fields of the class [Platform]. *)

From Stdlib Require Import Strings.Ascii Strings.String Strings.Byte DecimalString.
From stdpp Require Import base option list strings gmap fin_maps.

(** ** JavaScript strings

    Strings are byte strings; the whitespace [String.prototype.trim]
    strips is the ASCII part of JavaScript's [WhiteSpace] and
    [LineTerminator] classes (TAB, LF, VT, FF, CR, SP). *)

Definition is_whitespace (c : ascii) : bool :=
  match nat_of_ascii c with
  | 9 | 10 | 11 | 12 | 13 | 32 => true
  | _ => false
  end.

Fixpoint trimStart (s : string) : string :=
  match s with
  | EmptyString => EmptyString
  | String c s' => if is_whitespace c then trimStart s' else s
  end.

Fixpoint trimEnd (s : string) : string :=
  match s with
  | EmptyString => EmptyString
  | String c s' =>
      match trimEnd s' with
      | EmptyString => if is_whitespace c then EmptyString else String c EmptyString
      | t => String c t
      end
  end.

(** [s.trim()] *)
Definition trim (s : string) : string := trimEnd (trimStart s).

(** [s.split(sep)] for a separator of one character: every occurrence of
    the separator ends a piece, so the result is never empty and
    consecutive separators yield empty pieces. *)
Fixpoint split (sep : ascii) (s : string) : list string :=
  match s with
  | EmptyString => [EmptyString]
  | String c s' =>
      if Ascii.eqb c sep then EmptyString :: split sep s'
      else match split sep s' with
           | w :: ws => String c w :: ws
           | [] => [String c EmptyString]
           end
  end.

(** [pieces.join(sep)] *)
Fixpoint join (sep : string) (pieces : list string) : string :=
  match pieces with
  | [] => EmptyString
  | [p] => p
  | p :: ps => p +:+ sep +:+ join sep ps
  end.

(** [s.startsWith(p)] *)
Definition startsWith (p s : string) : bool := String.prefix p s.

(** [const [command, ...args] = input.trim().split(' ')] *)
Definition tokenize (input : string) : string * list string :=
  match split " "%char (trim input) with
  | command :: args => (command, args)
  | [] => (EmptyString, [])
  end.

(** ** [path] (POSIX flavour) *)

Definition isAbsolute (p : string) : bool :=
  match p with
  | String c _ => Ascii.eqb c "/"%char
  | EmptyString => false
  end.

(** One segment of [normalizeString]; [stack] holds the segments kept so
    far, the last one first. *)
Definition normalizeSegment (allowAboveRoot : bool) (stack : list string)
    (seg : string) : list string :=
  if String.eqb seg EmptyString then stack
  else if String.eqb seg "." then stack
  else if String.eqb seg ".." then
    match stack with
    | top :: rest =>
        if String.eqb top ".."
        then (if allowAboveRoot then ".." :: stack else stack)
        else rest
    | [] => if allowAboveRoot then [".."] else []
    end
  else seg :: stack.

Definition normalizeString (p : string) (allowAboveRoot : bool) : string :=
  join "/" (rev (fold_left (normalizeSegment allowAboveRoot) (split "/"%char p) [])).

(** The loop of [path.resolve]: arguments are visited from the right
    until an absolute one has been prepended; empty ones are skipped. *)
Fixpoint resolveLoop (right_to_left : list string) (resolvedPath : string)
    (resolvedAbsolute : bool) : string * bool :=
  if resolvedAbsolute then (resolvedPath, true)
  else match right_to_left with
       | [] => (resolvedPath, false)
       | p :: rest =>
           if String.eqb p EmptyString
           then resolveLoop rest resolvedPath resolvedAbsolute
           else resolveLoop rest (p +:+ "/" +:+ resolvedPath) (isAbsolute p)
       end.

(** [path.resolve(from, to)] on two strings; [cwd] is [process.cwd()],
    consulted when neither argument is absolute. *)
Definition resolve_path (cwd from to : string) : string :=
  let '(resolvedPath, resolvedAbsolute) :=
    resolveLoop [to; from; cwd] EmptyString false in
  let normalized := normalizeString resolvedPath (negb resolvedAbsolute) in
  if resolvedAbsolute then "/" +:+ normalized
  else if String.eqb normalized EmptyString then "." else normalized.

(** [path.resolve(from, to)], where [to] is [None] for [undefined].  The
    arguments are validated as they are visited, the rightmost first, so
    an undefined [to] always throws [ERR_INVALID_ARG_TYPE]: the result is
    then [None]. *)
Definition path_resolve (cwd from : string) (to : option string) : option string :=
  resolve_path cwd from <$> to.

(** [path.parse(p).root] *)
Definition path_root (p : string) : string :=
  if isAbsolute p then "/" else EmptyString.

(** ** The filesystem

    A POSIX filesystem as the handlers see it.  A name is bound to a
    regular file (through its inode number, so that an open descriptor
    outlives [unlink] and two names may share one file), to a directory or
    to a symbolic link; file contents and permissions live in the inode
    table.  Permissions are reduced to what the handlers can run into: a
    file may be read or written, a directory may have entries added and
    removed.  Every errno is one failure ([None]): the program reports
    them all alike. *)

Abbreviation bytes := (list byte).

Record file := File {
  f_data : bytes;
  f_readable : bool;
  f_writable : bool
}.

Inductive entry :=
  | EFile (ino : nat)
  | EDir (writable : bool)
  | ELink (target : string).

Inductive kind := KFile | KDir | KLink.

Record filesystem := Filesystem {
  names : gmap (list string) entry;
  inodes : gmap nat file;
  root_writable : bool
}.

Definition kind_of (e : entry) : kind :=
  match e with
  | EFile _ => KFile
  | EDir _ => KDir
  | ELink _ => KLink
  end.

(** The components of a path as the kernel reads them: empty components
    and [.] do nothing. *)
Definition components (p : string) : list string :=
  filter (λ c, c ≠ EmptyString ∧ c ≠ ".") (split "/"%char p).

Definition is_nil {A} (l : list A) : bool :=
  match l with [] => true | _ => false end.

(** Name resolution.  [cur] is the directory reached so far, as its
    location from the root.  A symbolic link met on the way is followed,
    the last component only if [follow] is set, at most [fuel] times in
    all (ELOOP beyond).  The result is the location of the last component,
    which need not exist; every component before it must be a directory. *)
Fixpoint walk (fuel : nat) (ns : gmap (list string) entry) (follow : bool)
    (cur : list string) (comps : list string) {struct fuel} : option (list string) :=
  (fix go (cur : list string) (comps : list string) {struct comps}
     : option (list string) :=
     match comps with
     | [] => Some cur
     | c :: rest =>
         if String.eqb c ".." then go (removelast cur) rest
         else
           match ns !! (cur ++ [c]) with
           | Some (ELink target) =>
               if is_nil rest && negb follow then Some (cur ++ [c])
               else if String.eqb target EmptyString then None
               else
                 match fuel with
                 | O => None
                 | S fuel' =>
                     walk fuel' ns follow
                       (if isAbsolute target then [] else cur)
                       (components target ++ rest)
                 end
           | Some (EDir _) => go (cur ++ [c]) rest
           | Some (EFile _) => if is_nil rest then Some (cur ++ [c]) else None
           | None => if is_nil rest then Some (cur ++ [c]) else None
           end
     end) cur comps.

Definition SYMLOOP_MAX : nat := 40.

(** The paths that reach the filesystem are results of [path.resolve],
    hence absolute: resolution starts at the root. *)
Definition namei (follow : bool) (fs : filesystem) (p : string) : option (list string) :=
  walk SYMLOOP_MAX (names fs) follow [] (components p).

Definition entry_at (fs : filesystem) (loc : list string) : option entry :=
  match loc with
  | [] => Some (EDir (root_writable fs))
  | _ => names fs !! loc
  end.

Definition dir_writable (fs : filesystem) (loc : list string) : bool :=
  match entry_at fs loc with
  | Some (EDir w) => w
  | _ => false
  end.

Definition set_names (ns : gmap (list string) entry) (fs : filesystem) : filesystem :=
  Filesystem ns (inodes fs) (root_writable fs).

Definition set_inodes (tbl : gmap nat file) (fs : filesystem) : filesystem :=
  Filesystem (names fs) tbl (root_writable fs).

(** [lstat(p)]: the kind of the entry [p] names, the link itself when
    that is a symbolic link. *)
Definition fs_lstat (fs : filesystem) (p : string) : option kind :=
  loc ← namei false fs p; kind_of <$> entry_at fs loc.

(** [stat(p)]: as [lstat], through symbolic links. *)
Definition fs_stat (fs : filesystem) (p : string) : option kind :=
  loc ← namei true fs p; kind_of <$> entry_at fs loc.

(** What [open(p, O_RDONLY)] yields: a descriptor on a file, or on a
    directory (which opens, and fails with EISDIR when read). *)
Inductive rd_handle := RdFile (ino : nat) | RdDir.

Definition open_read (fs : filesystem) (p : string) : option rd_handle :=
  loc ← namei true fs p;
  match entry_at fs loc with
  | Some (EFile i) =>
      f ← inodes fs !! i;
      if f_readable f then Some (RdFile i) else None
  | Some (EDir _) => Some RdDir
  | _ => None
  end.

(** An inode number not in use. *)
Definition fresh_ino (tbl : gmap nat file) : nat :=
  S (map_fold (λ i _ m, Nat.max i m) 0 tbl).

(** [open(p, O_WRONLY | O_CREAT | O_TRUNC, 0o666)], the flag ['w'] of
    [fs.writeFile] and [fs.createWriteStream]: an existing file is
    emptied, a missing one is created in its directory. *)
Definition open_write (fs : filesystem) (p : string) : option (filesystem * nat) :=
  loc ← namei true fs p;
  match entry_at fs loc with
  | Some (EFile i) =>
      f ← inodes fs !! i;
      if f_writable f
      then Some (set_inodes (<[i := File [] (f_readable f) (f_writable f)]> (inodes fs)) fs, i)
      else None
  | Some _ => None
  | None =>
      if dir_writable fs (removelast loc)
      then let i := fresh_ino (inodes fs) in
           Some (Filesystem (<[loc := EFile i]> (names fs))
                            (<[i := File [] true true]> (inodes fs))
                            (root_writable fs), i)
      else None
  end.

(** [write(fd, data)] at the end of the file behind the descriptor. *)
Definition write_data (i : nat) (data : bytes) (fs : filesystem) : filesystem :=
  set_inodes (alter (λ f, File (f_data f ++ data) (f_readable f) (f_writable f)) i (inodes fs)) fs.

Definition read_data (fs : filesystem) (i : nat) : bytes :=
  default [] (f_data <$> inodes fs !! i).

(** [fs.writeFile(p, data)] *)
Definition fs_writeFile (fs : filesystem) (p : string) (data : bytes) : option filesystem :=
  '(fs', i) ← open_write fs p; Some (write_data i data fs').

(** [fs.unlink(p)]: removes a name that is not a directory (EISDIR, or
    EPERM, on a directory).  The file behind it stays in the inode table:
    open descriptors keep reading it. *)
Definition fs_unlink (fs : filesystem) (p : string) : option filesystem :=
  loc ← namei false fs p;
  match entry_at fs loc with
  | Some (EDir _) => None
  | Some _ =>
      if dir_writable fs (removelast loc)
      then Some (set_names (delete loc (names fs)) fs)
      else None
  | None => None
  end.

(** The content of the regular file [p] names, if it can be read. *)
Definition read_file (fs : filesystem) (p : string) : option bytes :=
  h ← open_read fs p;
  match h with
  | RdFile i => Some (read_data fs i)
  | RdDir => None
  end.

Definition is_prefix_of (l k : list string) : bool :=
  bool_decide (take (length l) k = l).

Definition has_children (fs : filesystem) (loc : list string) : bool :=
  bool_decide (Exists (λ ke, is_prefix_of loc ke.1 ∧ ke.1 ≠ loc) (map_to_list (names fs))).

(** Moves the subtree at [from] to [to]. *)
Definition move_subtree (from to : list string) (ns : gmap (list string) entry)
    : gmap (list string) entry :=
  list_to_map
    ((λ ke : list string * entry,
        if is_prefix_of from ke.1 then (to ++ drop (length from) ke.1, ke.2) else ke)
     <$> map_to_list ns).

(** [fs.rename(old, new)]: neither name is followed when it is a link.
    A file replaces a file or link, a directory replaces an empty
    directory and cannot move into itself. *)
Definition fs_rename (fs : filesystem) (old new : string) : option filesystem :=
  from ← namei false fs old;
  to ← namei false fs new;
  match from, to with
  | [], _ | _, [] => None
  | _, _ =>
      src ← names fs !! from;
      if bool_decide (from = to) then Some fs
      else if negb (dir_writable fs (removelast from) && dir_writable fs (removelast to))
      then None
      else
        match src, names fs !! to with
        | EDir _, Some (EDir _) =>
            if is_prefix_of from to || has_children fs to then None
            else Some (set_names (move_subtree from to (delete to (names fs))) fs)
        | EDir _, Some _ => None
        | EDir _, None =>
            if is_prefix_of from to then None
            else Some (set_names (move_subtree from to (names fs)) fs)
        | _, Some (EDir _) => None
        | _, _ => Some (set_names (<[to := src]> (delete from (names fs))) fs)
        end
  end.

(** [fs.readdir(p, { withFileTypes: true })]: the names in a directory,
    each with its kind (a link is reported as a link). *)
Definition fs_readdir (fs : filesystem) (p : string) : option (list (string * kind)) :=
  loc ← namei true fs p;
  match entry_at fs loc with
  | Some (EDir _) =>
      Some (omap (λ ke : list string * entry,
                    match last ke.1 with
                    | Some name =>
                        if bool_decide (removelast ke.1 = loc)
                        then Some (name, kind_of ke.2) else None
                    | None => None
                    end)
                 (map_to_list (names fs)))
  | _ => None
  end.

(** ** The host *)

(** One element of [os.cpus()]; [cpu_GHz] is the text JavaScript prints
    for [cpu.speed / 1000]. *)
Record cpu := Cpu { cpu_model : string; cpu_GHz : string }.

(** What the program reads from its host and the library functions it
    treats as black boxes. *)
Class Platform := {
  os_homedir : string;
  os_EOL : string;
  os_cpus : list cpu;
  os_username : string;
  os_arch : string;
  (** [process.argv.slice(2)] *)
  process_args : list string;
  process_cwd : string;
  (** [crypto.createHash('sha256')]: the digest of all the data fed *)
  sha256 : bytes → bytes;
  (** [zlib.createBrotliCompress()] and [zlib.createBrotliDecompress()],
      on the whole of the data piped through; decoding may fail *)
  brotliCompress : bytes → bytes;
  brotliDecompress : bytes → option bytes
}.

(** ** Output *)

(** A row of [formattedFiles] in [listFiles]. *)
Record row := Row { index : nat; Name : string; Type_ : string }.

Inductive event :=
  | Log (line : string)        (* console.log(line) *)
  | Table (rows : list row)    (* console.table(rows) *)
  | Stdout (chunk : bytes)     (* a chunk piped to process.stdout *)
  | Prompt.                    (* rl.prompt() *)

(** Lowercase hexadecimal, as [digest('hex')] and [JSON.stringify] print. *)
Definition hex_digit (n : nat) : ascii :=
  match n with
  | 0 => "0" | 1 => "1" | 2 => "2" | 3 => "3" | 4 => "4" | 5 => "5"
  | 6 => "6" | 7 => "7" | 8 => "8" | 9 => "9" | 10 => "a" | 11 => "b"
  | 12 => "c" | 13 => "d" | 14 => "e" | _ => "f"
  end%char.

Definition hex_byte (n : nat) : string :=
  String (hex_digit (n / 16)) (String (hex_digit (n mod 16)) EmptyString).

Fixpoint hex (data : bytes) : string :=
  match data with
  | [] => EmptyString
  | b :: rest => hex_byte (Byte.to_nat b) +:+ hex rest
  end.

Definition quote : ascii := ascii_of_nat 34.
Definition backslash : ascii := ascii_of_nat 92.

Definition json_escape (c : ascii) : string :=
  let esc (x : ascii) := String backslash (String x EmptyString) in
  match nat_of_ascii c with
  | 8 => esc "b"%char
  | 9 => esc "t"%char
  | 10 => esc "n"%char
  | 12 => esc "f"%char
  | 13 => esc "r"%char
  | 34 => esc quote
  | 92 => esc backslash
  | n => if n <? 32 then String backslash ("u00" +:+ hex_byte n)
         else String c EmptyString
  end.

Fixpoint json_chars (s : string) : string :=
  match s with
  | EmptyString => EmptyString
  | String c s' => json_escape c +:+ json_chars s'
  end.

(** [JSON.stringify(s)] of a string. *)
Definition JSON_stringify (s : string) : string :=
  String quote (json_chars s +:+ String quote EmptyString).

(** [`${n}`] of a natural number. *)
Definition decimal (n : nat) : string := NilEmpty.string_of_uint (Nat.to_uint n).

(** ** File streams

    [fs.createReadStream] and [fs.createWriteStream] return at once: the
    files are opened, read and written later, from the event loop, after
    the handler that built the streams has returned.  A stream that was
    set up and has not finished is kept in the state.  It makes progress
    in two steps: both ends are opened, then the data flows to the end. *)

Inductive codec := Compress | Decompress.

(** Where the read stream is piped, one case per handler. *)
Inductive pipeline :=
  | ToStdout                                (* readFile *)
  | ToFile (destination : string)           (* copyFile *)
  | ToHash                                  (* calculateHash *)
  | ThroughBrotli (c : codec) (destination : string).  (* compressFile, decompressFile *)

Inductive stage :=
  | Constructed
  | Opened (rd : rd_handle) (wr : option nat).

Record stream := Stream {
  s_source : string;
  s_pipeline : pipeline;
  s_stage : stage
}.

Inductive proc_status :=
  | Running
  | Exited    (* process.exit() *)
  | Crashed.  (* an uncaught exception or an unhandled rejection *)

(** ** The session *)

Record state := State {
  currentDir : string;
  fs : filesystem;
  out : list event;
  pending : list stream;
  status : proc_status
}.

Definition set_currentDir (d : string) (st : state) : state :=
  State d (fs st) (out st) (pending st) (status st).
Definition set_fs (f : filesystem) (st : state) : state :=
  State (currentDir st) f (out st) (pending st) (status st).
Definition emit (e : event) (st : state) : state :=
  State (currentDir st) (fs st) (out st ++ [e]) (pending st) (status st).
Definition set_pending (ps : list stream) (st : state) : state :=
  State (currentDir st) (fs st) (out st) ps (status st).
Definition set_status (s : proc_status) (st : state) : state :=
  State (currentDir st) (fs st) (out st) (pending st) s.

(** [console.log(line)] *)
Definition console_log (line : string) : state → state := emit (Log line).

Definition running (st : state) : bool :=
  match status st with Running => true | _ => false end.

(** The chunks a read stream emits: [highWaterMark] bytes each, the last
    one shorter. *)
Definition highWaterMark : nat := 64 * 1024.

Fixpoint chunks_go (fuel size : nat) (data : bytes) : list bytes :=
  match fuel, data with
  | S fuel', _ :: _ => take size data :: chunks_go fuel' size (drop size data)
  | _, _ => []
  end.

Definition read_chunks (data : bytes) : list bytes :=
  chunks_go (length data) highWaterMark data.

(** [hash.update(chunk)] on a hash object that has been fed [fed]. *)
Definition hash_update (fed chunk : bytes) : bytes := fed ++ chunk.

Definition destination_of (p : pipeline) : option string :=
  match p with
  | ToFile d | ThroughBrotli _ d => Some d
  | ToStdout | ToHash => None
  end.

(** An ['error'] event on a stream of the pipeline.  [readFile],
    [copyFile] and [calculateHash] listen for it and print; the streams
    of [compressFile] and [decompressFile] have no listener, and an
    ['error'] event without one is thrown as an uncaught exception. *)
Definition stream_error (p : pipeline) (st : state) : state :=
  match p with
  | ThroughBrotli _ _ => set_status Crashed st
  | _ => console_log "Operation failed" st
  end.

Section Streams.
Context `{Platform}.

(** Both ends are opened, the read end first; each failure is an
    ['error'] event on its stream.  The pipeline goes on only when both
    opened. *)
Definition stream_open (s : stream) (st : state) : state * option stream :=
  let rd := open_read (fs st) (s_source s) in
  let st1 := match rd with
             | Some _ => st
             | None => stream_error (s_pipeline s) st
             end in
  match destination_of (s_pipeline s) with
  | None => (st1, (λ h, Stream (s_source s) (s_pipeline s) (Opened h None)) <$> rd)
  | Some d =>
      match open_write (fs st1) d with
      | Some (fs', i) =>
          (set_fs fs' st1,
           (λ h, Stream (s_source s) (s_pipeline s) (Opened h (Some i))) <$> rd)
      | None => (stream_error (s_pipeline s) st1, None)
      end
  end.

Definition write_to (wr : option nat) (data : bytes) (st : state) : state :=
  match wr with
  | Some j => set_fs (write_data j data (fs st)) st
  | None => st
  end.

(** The data flows, chunk by chunk, and the pipeline ends.  (The read
    stream of [readFile] decodes UTF-8 and standard output encodes it
    again: what is written is what was read when the file is text.) *)
Definition stream_flow (p : pipeline) (rd : rd_handle) (wr : option nat)
    (st : state) : state :=
  match rd with
  | RdDir => stream_error p st
  | RdFile i =>
      let chunks := read_chunks (read_data (fs st) i) in
      match p with
      | ToStdout => fold_left (λ st c, emit (Stdout c) st) chunks st
      | ToFile _ => fold_left (λ st c, write_to wr c st) chunks st
      | ToHash => console_log (hex (sha256 (fold_left hash_update chunks []))) st
      | ThroughBrotli Compress _ => write_to wr (brotliCompress (concat chunks)) st
      | ThroughBrotli Decompress _ =>
          match brotliDecompress (concat chunks) with
          | Some data => write_to wr data st
          | None => stream_error p st
          end
      end
  end.

(** One step of a stream; the stream that remains, if it has not ended. *)
Definition stream_step (s : stream) (st : state) : state * option stream :=
  match s_stage s with
  | Constructed => stream_open s st
  | Opened rd wr => (stream_flow (s_pipeline s) rd wr st, None)
  end.

(** The [i]-th pending stream makes one step. *)
Definition advance (i : nat) (st : state) : state :=
  match status st, pending st !! i with
  | Running, Some s =>
      let '(st', s') := stream_step s st in
      set_pending (match s' with
                   | Some s' => <[i := s']> (pending st)
                   | None => delete i (pending st)
                   end) st'
  | _, _ => st
  end.

(** What the pending streams do while a handler waits for a filesystem
    call: the steps [bg] names, in that order. *)
Definition background (bg : list nat) (st : state) : state :=
  fold_left (λ st i, advance i st) bg st.

(** A stream runs to its end. *)
Definition finish (s : stream) (st : state) : state :=
  match stream_step s st with
  | (st', Some s') => if running st' then (stream_step s' st').1 else st'
  | (st', None) => st'
  end.

(** The event loop runs until no stream is pending, the streams one
    after the other in the order they were set up. *)
Definition settle (st : state) : state :=
  fold_left (λ st s, if running st then finish s st else st)
            (pending st) (set_pending [] st).
End Streams.

(** ** The handlers

    Every handler but [handleOSCommand] and [exitProgram] is an [async]
    function: it ends fulfilled, or rejected when an exception escapes
    it.  [path.resolve] throws a [TypeError] on an [undefined] argument;
    the handlers that call it outside their [try] block are rejected
    then. *)

Inductive completion :=
  | Fulfilled (st : state)
  | Rejected (st : state).

(** [await first; next] *)
Definition and_then (first : completion) (next : state → completion) : completion :=
  match first with
  | Fulfilled st => next st
  | Rejected st => Rejected st
  end.

Section FileManager.
Context `{Platform}.

(** [const usernameArg = args.find((arg) => arg.startsWith('--username='));]
    [const username = usernameArg ? usernameArg.split('=')[1] : 'User';] *)
Definition username : string :=
  match List.find (startsWith "--username=") process_args with
  | Some usernameArg => default "undefined" (split "="%char usernameArg !! 1)
  | None => "User"
  end.

(** [path.resolve(currentDir, p)] *)
Definition resolve (st : state) (p : option string) : option string :=
  path_resolve process_cwd (currentDir st) p.

(** The same, for an argument that is there. *)
Definition resolved (st : state) (p : string) : string :=
  resolve_path process_cwd (currentDir st) p.

(** The steps the pending streams make while the handler of the line
    waits for its filesystem call to return. *)
Variable bg : list nat.

(** [await] on a call of [fs/promises]: the handler resumes when the
    call has returned, unless the process died meanwhile. *)
Definition await (st : state) (resume : state → completion) : completion :=
  let st' := background bg st in
  if running st' then resume st' else Fulfilled st'.

Definition exitProgram (st : state) : completion :=
  Fulfilled
    (set_status Exited
       (console_log ("Thank you for using File Manager, " +:+ username +:+ ", goodbye!") st)).

Definition navigateUp (st : state) : completion :=
  let rootDir := path_root (currentDir st) in
  if negb (String.eqb (currentDir st) rootDir) then
    match resolve st (Some "..") with
    | Some parent =>
        Fulfilled (console_log ("You are currently in " +:+ parent) (set_currentDir parent st))
    | None => Rejected st
    end
  else Fulfilled (console_log "You are at the root directory." st).

Definition changeDirectory (dir : option string) (st : state) : completion :=
  match resolve st dir with
  | Some newDir =>
      await st (λ st,
        match fs_lstat (fs st) newDir with
        | Some KDir =>
            Fulfilled (console_log ("You are currently in " +:+ newDir)
                         (set_currentDir newDir st))
        | Some _ => Fulfilled (console_log "Invalid input" st)
        | None => Fulfilled (console_log "Invalid input" st)
        end)
  | None => Fulfilled (console_log "Invalid input" st)
  end.

Definition listFiles (st : state) : completion :=
  let dir := currentDir st in
  await st (λ st,
    match fs_readdir (fs st) dir with
    | Some files =>
        let formattedFiles :=
          imap (λ index (file : string * kind),
                  Row index file.1
                      (match file.2 with KDir => "directory" | _ => "file" end))
               files in
        Fulfilled (emit (Table formattedFiles) st)
    | None => Fulfilled (console_log "Operation failed" st)
    end).

(** The streams are only set up here: see [Streams]. *)
Definition pipe (source : string) (p : pipeline) (st : state) : state :=
  set_pending (pending st ++ [Stream source p Constructed]) st.

Definition readFile (filePath : option string) (st : state) : completion :=
  match resolve st filePath with
  | Some fullPath => Fulfilled (pipe fullPath ToStdout st)
  | None => Rejected st
  end.

Definition createFile (fileName : option string) (st : state) : completion :=
  match resolve st fileName with
  | Some fullPath =>
      await st (λ st,
        match fs_writeFile (fs st) fullPath [] with
        | Some fs' => Fulfilled (console_log "File created" (set_fs fs' st))
        | None => Fulfilled (console_log "Operation failed" st)
        end)
  | None => Rejected st
  end.

Definition renameFile (oldPath newPath : option string) (st : state) : completion :=
  match resolve st oldPath, resolve st newPath with
  | Some oldFullPath, Some newFullPath =>
      await st (λ st,
        match fs_rename (fs st) oldFullPath newFullPath with
        | Some fs' => Fulfilled (console_log "File renamed" (set_fs fs' st))
        | None => Fulfilled (console_log "Operation failed" st)
        end)
  | _, _ => Rejected st
  end.

Definition copyFile (source destination : option string) (st : state) : completion :=
  match resolve st source, resolve st destination with
  | Some srcFullPath, Some destFullPath =>
      Fulfilled (pipe srcFullPath (ToFile destFullPath) st)
  | _, _ => Rejected st
  end.

Definition deleteFile (filePath : option string) (st : state) : completion :=
  match resolve st filePath with
  | Some fullPath =>
      await st (λ st,
        match fs_unlink (fs st) fullPath with
        | Some fs' => Fulfilled (console_log "File deleted" (set_fs fs' st))
        | None => Fulfilled (console_log "Operation failed" st)
        end)
  | None => Rejected st
  end.

Definition moveFile (source destination : option string) (st : state) : completion :=
  and_then (copyFile source destination st) (deleteFile source).

Definition handleOSCommand (option : option string) (st : state) : completion :=
  match option with
  | Some option =>
      if String.eqb option "--EOL" then
        Fulfilled (console_log (JSON_stringify os_EOL) st)
      else if String.eqb option "--cpus" then
        let cpus := os_cpus in
        Fulfilled
          (fold_left (λ st line, console_log line st)
             (imap (λ idx c, "CPU " +:+ decimal (idx + 1) +:+ ": " +:+ cpu_model c
                             +:+ ", " +:+ cpu_GHz c +:+ " GHz") cpus)
             (console_log ("Total CPUs: " +:+ decimal (length cpus)) st))
      else if String.eqb option "--homedir" then
        Fulfilled (console_log os_homedir st)
      else if String.eqb option "--username" then
        Fulfilled (console_log os_username st)
      else if String.eqb option "--architecture" then
        Fulfilled (console_log os_arch st)
      else Fulfilled (console_log "Invalid input" st)
  | None => Fulfilled (console_log "Invalid input" st)
  end.

Definition calculateHash (filePath : option string) (st : state) : completion :=
  match resolve st filePath with
  | Some fullPath => Fulfilled (pipe fullPath ToHash st)
  | None => Rejected st
  end.

Definition compressFile (source destination : option string) (st : state) : completion :=
  match resolve st source, resolve st destination with
  | Some srcFullPath, Some destFullPath =>
      Fulfilled (pipe srcFullPath (ThroughBrotli Compress destFullPath) st)
  | _, _ => Rejected st
  end.

Definition decompressFile (source destination : option string) (st : state) : completion :=
  match resolve st source, resolve st destination with
  | Some srcFullPath, Some destFullPath =>
      Fulfilled (pipe srcFullPath (ThroughBrotli Decompress destFullPath) st)
  | _, _ => Rejected st
  end.

(** The [switch] of the line listener. *)
Definition dispatch (command : string) (args : list string) (st : state) : completion :=
  if String.eqb command ".exit" then exitProgram st
  else if String.eqb command "up" then navigateUp st
  else if String.eqb command "cd" then changeDirectory (args !! 0) st
  else if String.eqb command "ls" then listFiles st
  else if String.eqb command "cat" then readFile (args !! 0) st
  else if String.eqb command "add" then createFile (args !! 0) st
  else if String.eqb command "rn" then renameFile (args !! 0) (args !! 1) st
  else if String.eqb command "cp" then copyFile (args !! 0) (args !! 1) st
  else if String.eqb command "mv" then moveFile (args !! 0) (args !! 1) st
  else if String.eqb command "rm" then deleteFile (args !! 0) st
  else if String.eqb command "os" then handleOSCommand (args !! 0) st
  else if String.eqb command "hash" then calculateHash (args !! 0) st
  else if String.eqb command "compress" then compressFile (args !! 0) (args !! 1) st
  else if String.eqb command "decompress" then decompressFile (args !! 0) (args !! 1) st
  else Fulfilled (console_log "Invalid input" st).

(** [rl.on('line', async (input) => { ... rl.prompt(); })].  Nothing
    handles the promise of the listener: when it is rejected, the
    unhandled rejection ends the process (the default since Node 15),
    and the prompt is not shown again.  After [process.exit()] nothing
    runs. *)
Definition onLine (input : string) (st : state) : state :=
  if running st then
    let '(command, args) := tokenize input in
    match dispatch command args st with
    | Fulfilled st' => if running st' then emit Prompt st' else st'
    | Rejected st' => set_status Crashed st'
    end
  else st.

(** [process.on('SIGINT', ...)] *)
Definition onSIGINT (st : state) : state :=
  if running st then
    match exitProgram st with Fulfilled st' | Rejected st' => st' end
  else st.
End FileManager.

(** The state after the top level of the module has run, on the
    filesystem [fs0]. *)
Definition start `{Platform} (fs0 : filesystem) : state :=
  State os_homedir fs0
        [ Log ("Welcome to the File Manager, " +:+ username +:+ "!");
          Log ("You are currently in " +:+ os_homedir);
          Prompt ]
        [] Running.

(** The verbs of the [switch]. *)
Definition commands : list string :=
  [ ".exit"; "up"; "cd"; "ls"; "cat"; "add"; "rn"; "cp"; "mv"; "rm"; "os";
    "hash"; "compress"; "decompress" ].

(** ** Vocabulary of the properties *)

Definition all_whitespace (s : string) : Prop :=
  Forall (λ c, is_whitespace c = true) (list_ascii_of_string s).

(** The characters of a string, none of which is [c]. *)
Fixpoint free_of (c : ascii) (s : string) : bool :=
  match s with
  | EmptyString => true
  | String a s' => negb (Ascii.eqb a c) && free_of c s'
  end.

Definition is_segment (s : string) : bool :=
  negb (String.eqb s EmptyString) && negb (String.eqb s ".")
  && negb (String.eqb s "..") && free_of "/" s.

Definition absolute (segs : list string) : string := "/" +:+ join "/" segs.

Definition normalize (segs : list string) : list string :=
  rev (fold_left (normalizeSegment false) segs []).

Definition cwd_ok (st : state) : Prop :=
  ∃ segs, Forall (λ s, is_segment s = true) segs ∧ currentDir st = absolute segs.

(** The state a handler ends in. *)
Definition final (c : completion) : state :=
  match c with Fulfilled st | Rejected st => st end.

(** The inode of the regular file [p] names, through symbolic links. *)
Definition file_ino (fs : filesystem) (p : string) : option nat :=
  loc ← namei true fs p;
  match entry_at fs loc with
  | Some (EFile i) => Some i
  | _ => None
  end.

(** The regular file [p] names. *)
Definition file_at (fs : filesystem) (p : string) : option file :=
  i ← file_ino fs p; inodes fs !! i.

(** Nothing is at [p], and the directory it would be in exists and can
    be written. *)
Definition creatable (fs : filesystem) (p : string) : Prop :=
  ∃ loc, namei true fs p = Some loc ∧ entry_at fs loc = None
         ∧ dir_writable fs (removelast loc) = true.

Definition is_lowercase_hex_digit (c : ascii) : bool :=
  bool_decide (c ∈ list_ascii_of_string "0123456789abcdef").

(** A string of lowercase hexadecimal digits. *)
Definition lowercase_hex (s : string) : bool :=
  forallb is_lowercase_hex_digit (list_ascii_of_string s).

(** What a Brotli stream turns the data piped through it into. *)
Definition through_brotli `{Platform} (c : codec) (data : bytes) : option bytes :=
  match c with
  | Compress => Some (brotliCompress data)
  | Decompress => brotliDecompress data
  end.

(** A session: the lines in their order, each with the schedule of its
    listener; the streams a line has set up end before the next line is
    read. *)
Definition run `{Platform} (lines : list (list nat * string)) (st : state) : state :=
  fold_left (λ st l, settle (onLine l.1 l.2 st)) lines st.

(** What has been piped to standard output. *)
Fixpoint stdout_of (events : list event) : bytes :=
  match events with
  | [] => []
  | Stdout chunk :: rest => chunk ++ stdout_of rest
  | _ :: rest => stdout_of rest
  end.

(** The farewell of [exitProgram]. *)
Definition goodbye `{Platform} : string :=
  "Thank you for using File Manager, " +:+ username +:+ ", goodbye!".


(** Content that is ASCII text: every byte is below 128, so decoding it
    as UTF-8 and encoding it again gives the same bytes, chunk by
    chunk. *)
Definition ascii_text (content : bytes) : bool :=
  forallb (λ b, (Byte.to_N b <? 128)%N) content.
(** ** A small world to run the program in *)

(** Stand-ins that can be computed with.  The codec puts one marker
    byte before the data; the digest (see [demo_platform]) is the data
    backwards. *)
Definition marker_compress (data : bytes) : bytes := xce :: data.

Definition marker_decompress (data : bytes) : option bytes :=
  match data with
  | xce :: rest => Some rest
  | _ => None
  end.

#[local] Instance demo_platform : Platform := {|
  os_homedir := "/home/u";
  os_EOL := String (ascii_of_nat 10) EmptyString;
  os_cpus := [Cpu "Z80" "0.004"];
  os_username := "u";
  os_arch := "x64";
  process_args := ["--username=Ann"];
  process_cwd := "/srv";
  sha256 := λ data, rev data;
  brotliCompress := marker_compress;
  brotliDecompress := marker_decompress
|}.

(** [/home/u] holds the file [a.txt] (the bytes of [hi]), the directory
    [docs] with a read-only file, and a link [lnk] to [docs]; [/etc],
    with its file [motd], and the root cannot be written. *)
Definition demo_fs : filesystem :=
  Filesystem
    (list_to_map [ (["home"], EDir true); (["home"; "u"], EDir true);
                   (["home"; "u"; "a.txt"], EFile 1);
                   (["home"; "u"; "docs"], EDir true);
                   (["home"; "u"; "docs"; "n.md"], EFile 2);
                   (["home"; "u"; "lnk"], ELink "docs");
                   (["etc"], EDir false);
                   (["etc"; "motd"], EFile 3) ])
    (list_to_map [ (1, File [x68; x69] true true); (2, File [x00] true false);
                   (3, File [x6f; x6b] true true) ])
    false.

Definition demo : state := start demo_fs.

(** * Properties *)

(** ** Strings *)

Lemma append_cons c s t : String c s +:+ t = String c (s +:+ t).
Proof. reflexivity. Qed.

Lemma append_empty s : EmptyString +:+ s = s.
Proof. reflexivity. Qed.

Lemma append_empty_r s : s +:+ EmptyString = s.
Proof. induction s as [|c s IH]; [done|]. by rewrite append_cons, IH. Qed.

Lemma append_assoc s t u : (s +:+ t) +:+ u = s +:+ (t +:+ u).
Proof. induction s as [|c s IH]; [done|]. by rewrite !append_cons, IH. Qed.

Lemma trim_all_whitespace s : all_whitespace s → trim s = EmptyString.
Proof.
  unfold all_whitespace, trim. induction s as [|c s IH]; simpl; [done|].
  intros Hws. inversion Hws as [|? ? Hc Hs]; subst. rewrite Hc. by apply IH.
Qed.

Lemma split_not_nil sep s : split sep s ≠ [].
Proof.
  destruct s as [|c s]; simpl; [done|].
  destruct (Ascii.eqb c sep); [done|]. by destruct (split sep s).
Qed.

Lemma split_app sep s t :
  split sep (s +:+ String sep t) = split sep s ++ split sep t.
Proof.
  induction s as [|c s IH].
  - rewrite append_empty. simpl. by rewrite Ascii.eqb_refl.
  - rewrite append_cons. simpl. rewrite IH.
    destruct (Ascii.eqb c sep); [done|].
    pose proof (split_not_nil sep s). by destruct (split sep s).
Qed.

Lemma split_free sep s : free_of sep s = true → split sep s = [s].
Proof.
  induction s as [|c s IH]; simpl; [done|].
  intros [Hc Hs]%andb_prop. apply negb_true_iff in Hc. rewrite Hc.
  by rewrite (IH Hs).
Qed.

(** ** Paths *)

Lemma split_pieces_free sep s : Forall (λ p, free_of sep p = true) (split sep s).
Proof.
  induction s as [|c s IH]; simpl; [by repeat constructor|].
  destruct (Ascii.eqb c sep) eqn:Hc; [by constructor|].
  destruct (split sep s) as [|w ws]; [by repeat constructor; simpl; rewrite Hc|].
  inversion IH; subst. constructor; [|done]. simpl. by rewrite Hc.
Qed.

Lemma join_cons sep p q ps : join sep (p :: q :: ps) = p +:+ sep +:+ join sep (q :: ps).
Proof. reflexivity. Qed.

Lemma split_join segs :
  Forall (λ p, free_of "/" p = true) segs → segs ≠ [] →
  split "/" (join "/" segs) = segs.
Proof.
  induction segs as [|p [|q ps] IH]; intros Hfree Hne; [done| |].
  - simpl. apply split_free. by inversion Hfree.
  - rewrite join_cons. change ("/" +:+ ?s) with (String "/" s).
    inversion Hfree as [|? ? Hp Hrest]; subst.
    rewrite split_app, (split_free _ _ Hp), IH; done.
Qed.

Lemma is_segment_free s : is_segment s = true → free_of "/" s = true.
Proof. unfold is_segment. by intros [_ ?]%andb_prop. Qed.

Lemma segments_free segs :
  Forall (λ s, is_segment s = true) segs → Forall (λ p, free_of "/" p = true) segs.
Proof. intros Hs. eapply Forall_impl; [exact Hs|]. intros s. apply is_segment_free. Qed.

Lemma split_absolute segs :
  Forall (λ s, is_segment s = true) segs →
  split "/" (absolute segs) = EmptyString :: (if is_nil segs then [EmptyString] else segs).
Proof.
  intros Hsegs. unfold absolute. change ("/" +:+ ?s) with (String "/" s).
  simpl split. f_equal. destruct segs as [|p ps]; [done|].
  apply split_join; [by apply segments_free|done].
Qed.

Lemma normalizeSegment_segment above stack s :
  is_segment s = true → normalizeSegment above stack s = s :: stack.
Proof.
  unfold is_segment, normalizeSegment.
  intros [[[H1 H2]%andb_prop H3]%andb_prop _]%andb_prop.
  apply negb_true_iff in H1, H2, H3. by rewrite H1, H2, H3.
Qed.

Lemma fold_segments above segs stack :
  Forall (λ s, is_segment s = true) segs →
  fold_left (normalizeSegment above) segs stack = rev segs ++ stack.
Proof.
  intros Hsegs. revert stack.
  induction Hsegs as [|s segs Hs _ IH]; intros stack; simpl; [done|].
  rewrite normalizeSegment_segment, IH by done. by rewrite <- app_assoc.
Qed.

Lemma fold_split_absolute above segs :
  Forall (λ s, is_segment s = true) segs →
  fold_left (normalizeSegment above) (split "/" (absolute segs)) [] = rev segs.
Proof.
  intros Hsegs. rewrite split_absolute by done. simpl.
  destruct segs as [|p ps]; [done|].
  cbn [is_nil]. rewrite fold_segments by done. by rewrite app_nil_r.
Qed.

Lemma isAbsolute_absolute segs : isAbsolute (absolute segs) = true.
Proof. reflexivity. Qed.

Lemma absolute_not_empty segs : String.eqb (absolute segs) EmptyString = false.
Proof. reflexivity. Qed.

(** [path.resolve] from a normalized absolute directory: the segments of
    [to] are applied to those of the directory, or to the root when [to]
    is absolute. *)
Lemma slash_append s : "/" +:+ s = String "/" s.
Proof. reflexivity. Qed.

Lemma resolve_path_absolute cwd segs to :
  Forall (λ s, is_segment s = true) segs →
  resolve_path cwd (absolute segs) to =
  absolute (normalize (if isAbsolute to then split "/" to
                       else segs ++ split "/" to)).
Proof.
  intros Hsegs. unfold resolve_path, normalize.
  destruct to as [|c to'].
  - cbn [resolveLoop String.eqb isAbsolute]. rewrite absolute_not_empty, isAbsolute_absolute.
    cbn [resolveLoop negb]. unfold normalizeString, absolute at 2.
    rewrite !slash_append, split_app, !fold_left_app, fold_split_absolute by done.
    rewrite (fold_segments _ segs) by done. by rewrite app_nil_r.
  - cbn [resolveLoop String.eqb]. destruct (isAbsolute (String c to')) eqn:Habs.
    + cbn [resolveLoop negb]. unfold normalizeString, absolute.
      by rewrite !slash_append, split_app, fold_left_app.
    + cbn [resolveLoop]. rewrite absolute_not_empty, isAbsolute_absolute.
      cbn [resolveLoop negb]. unfold normalizeString, absolute at 2.
      rewrite !slash_append, !split_app, !fold_left_app, fold_split_absolute by done.
      rewrite (fold_segments _ segs) by done. by rewrite app_nil_r.
Qed.

Lemma normalizeSegment_ok stack seg :
  Forall (λ s, is_segment s = true) stack → free_of "/" seg = true →
  Forall (λ s, is_segment s = true) (normalizeSegment false stack seg).
Proof.
  intros Hstack Hfree. unfold normalizeSegment.
  destruct (String.eqb seg EmptyString) eqn:H1; [done|].
  destruct (String.eqb seg ".") eqn:H2; [done|].
  destruct (String.eqb seg "..") eqn:H3.
  - destruct stack as [|top rest]; [done|].
    destruct (String.eqb top ".."); [done|]. by inversion Hstack.
  - constructor; [|done]. unfold is_segment. by rewrite H1, H2, H3, Hfree.
Qed.

Lemma normalize_ok segs :
  Forall (λ p, free_of "/" p = true) segs →
  Forall (λ s, is_segment s = true) (normalize segs).
Proof.
  unfold normalize. intros Hfree. apply Forall_rev.
  assert (Hgen : ∀ stack, Forall (λ s, is_segment s = true) stack →
            Forall (λ s, is_segment s = true)
              (fold_left (normalizeSegment false) segs stack)).
  { induction Hfree as [|p ps Hp _ IH]; intros stack Hstack; simpl; [done|].
    apply IH. by apply normalizeSegment_ok. }
  by apply Hgen.
Qed.

(** The directory [path.resolve] yields from a normalized absolute one is
    normalized and absolute. *)
Lemma resolve_path_ok cwd segs to :
  Forall (λ s, is_segment s = true) segs →
  ∃ segs', Forall (λ s, is_segment s = true) segs'
           ∧ resolve_path cwd (absolute segs) to = absolute segs'.
Proof.
  intros Hsegs. eexists. split; [|by apply resolve_path_absolute].
  apply normalize_ok. destruct (isAbsolute to).
  - apply split_pieces_free.
  - apply Forall_app. split; [by apply segments_free|apply split_pieces_free].
Qed.

Lemma normalize_parent segs x :
  Forall (λ s, is_segment s = true) segs → is_segment x = true →
  normalize ((segs ++ [x]) ++ split "/" "..") = segs.
Proof.
  intros Hsegs Hx. unfold normalize. rewrite !fold_left_app.
  rewrite (fold_segments _ segs), app_nil_r by done.
  cbn [split fold_left Ascii.eqb Bool.eqb]. simpl split.
  cbn [fold_left]. rewrite (normalizeSegment_segment _ _ x) by done.
  unfold normalizeSegment. cbn.
  destruct (String.eqb x "..") eqn:Hdots.
  - unfold is_segment in Hx. rewrite Hdots in Hx.
    by rewrite andb_false_r in Hx.
  - apply rev_involutive.
Qed.

Lemma absolute_root_iff segs :
  Forall (λ s, is_segment s = true) segs →
  String.eqb (absolute segs) "/" = is_nil segs.
Proof.
  intros Hsegs. destruct segs as [|p ps]; [done|]. cbn [is_nil].
  apply String.eqb_neq. intros Heq.
  assert (Hsplit : split "/" (join "/" (p :: ps)) = p :: ps).
  { apply split_join; [by apply segments_free|done]. }
  unfold absolute in Heq. rewrite slash_append in Heq.
  remember (join "/" (p :: ps)) as j eqn:Hj.
  injection Heq as ->. simpl in Hsplit.
  injection Hsplit as <- _. by inversion Hsegs.
Qed.

(** ** The current directory is touched by [cd] and [up] only *)

Lemma fold_left_frame {A B C} (g : A → C) (f : A → B → A) l a :
  (∀ a b, g (f a b) = g a) → g (fold_left f l a) = g a.
Proof.
  intros Hf. revert a. induction l as [|b l IH]; intros a; simpl; [done|].
  by rewrite IH, Hf.
Qed.

Section Frame.
Context `{Platform}.

Lemma stream_error_currentDir p st : currentDir (stream_error p st) = currentDir st.
Proof. by destruct p. Qed.

Lemma write_to_currentDir wr data st : currentDir (write_to wr data st) = currentDir st.
Proof. by destruct wr. Qed.

Lemma stream_step_currentDir s st : currentDir (stream_step s st).1 = currentDir st.
Proof.
  unfold stream_step. destruct (s_stage s) as [|rd wr]; simpl.
  - unfold stream_open.
    destruct (destination_of (s_pipeline s)) as [d|]; simpl.
    + destruct (open_write _ d) as [[fs' i]|]; simpl;
        rewrite ?stream_error_currentDir;
        destruct (open_read (fs st) (s_source s)); simpl;
        by rewrite ?stream_error_currentDir.
    + destruct (open_read (fs st) (s_source s)); simpl;
        by rewrite ?stream_error_currentDir.
  - unfold stream_flow. destruct rd as [i|]; [|apply stream_error_currentDir].
    destruct (s_pipeline s) as [|d| |[] d]; simpl.
    + by apply (fold_left_frame currentDir).
    + apply (fold_left_frame currentDir). intros. apply write_to_currentDir.
    + done.
    + apply write_to_currentDir.
    + destruct (brotliDecompress _); [apply write_to_currentDir|done].
Qed.

Lemma advance_currentDir i st : currentDir (advance i st) = currentDir st.
Proof.
  unfold advance. destruct (status st); [|done..].
  destruct (pending st !! i) as [s|]; [|done].
  pose proof (stream_step_currentDir s st) as Hstep.
  by destruct (stream_step s st) as [st' s'].
Qed.

Lemma background_currentDir bg st : currentDir (background bg st) = currentDir st.
Proof. apply (fold_left_frame currentDir). intros. apply advance_currentDir. Qed.

Lemma finish_currentDir s st : currentDir (finish s st) = currentDir st.
Proof.
  unfold finish. pose proof (stream_step_currentDir s st) as Hstep.
  destruct (stream_step s st) as [st' [s'|]]; simpl in Hstep; [|done].
  destruct (running st'); [|done]. by rewrite stream_step_currentDir.
Qed.

Lemma settle_currentDir st : currentDir (settle st) = currentDir st.
Proof.
  unfold settle. rewrite (fold_left_frame currentDir); [done|].
  intros a s. destruct (running a); [apply finish_currentDir|done].
Qed.

(** Nothing is pending: waiting changes nothing. *)
Lemma background_quiescent bg st : pending st = [] → background bg st = st.
Proof.
  intros Hq. unfold background. induction bg as [|i bg IH]; simpl; [done|].
  unfold advance at 2. rewrite Hq. simpl. by destruct (status st).
Qed.

Lemma await_quiescent bg st resume :
  pending st = [] → running st = true → await bg st resume = resume st.
Proof. intros Hq Hrun. unfold await. by rewrite background_quiescent, Hrun. Qed.

Lemma await_currentDir bg st resume :
  (∀ st', currentDir (final (resume st')) = currentDir st') →
  currentDir (final (await bg st resume)) = currentDir st.
Proof.
  intros Hres. unfold await. destruct (running _); simpl.
  - by rewrite Hres, background_currentDir.
  - apply background_currentDir.
Qed.

Lemma onLine_eq bg input command args st :
  running st = true → tokenize input = (command, args) →
  onLine bg input st =
  match dispatch bg command args st with
  | Fulfilled st' => if running st' then emit Prompt st' else st'
  | Rejected st' => set_status Crashed st'
  end.
Proof. intros Hrun Htok. unfold onLine. by rewrite Hrun, Htok. Qed.

Lemma onLine_currentDir bg input st :
  currentDir (onLine bg input st)
  = if running st
    then currentDir (final (dispatch bg (tokenize input).1 (tokenize input).2 st))
    else currentDir st.
Proof.
  unfold onLine. destruct (running st); [|done].
  destruct (tokenize input) as [command args]. simpl.
  destruct (dispatch bg command args st) as [st'|st']; simpl; [|done].
  by destruct (running st').
Qed.

Lemma dispatch_unknown bg command args st :
  command ∉ commands →
  dispatch bg command args st = Fulfilled (console_log "Invalid input" st).
Proof.
  unfold commands, dispatch. intros Hnot.
  repeat (apply not_elem_of_cons in Hnot as [Hne Hnot];
          apply String.eqb_neq in Hne; rewrite Hne; clear Hne).
  done.
Qed.

Lemma dispatch_currentDir bg command args st :
  command ≠ "cd" → command ≠ "up" →
  currentDir (final (dispatch bg command args st)) = currentDir st.
Proof.
  intros Hcd%String.eqb_neq Hup%String.eqb_neq. unfold dispatch.
  rewrite Hcd, Hup.
  repeat match goal with
         | |- context [if String.eqb command ?v then _ else _] =>
             destruct (String.eqb command v)
         end; try done.
  - unfold listFiles. apply await_currentDir. intros st'.
    by destruct (fs_readdir _ _).
  - unfold readFile. by destruct (resolve st _).
  - unfold createFile. destruct (resolve st _); [|done].
    apply await_currentDir. intros st'. by destruct (fs_writeFile _ _ _).
  - unfold renameFile. destruct (resolve st (args !! 0)), (resolve st (args !! 1)); try done.
    apply await_currentDir. intros st'. by destruct (fs_rename _ _ _).
  - unfold copyFile. by destruct (resolve st (args !! 0)), (resolve st (args !! 1)).
  - unfold moveFile, copyFile.
    destruct (resolve st (args !! 0)) as [src|] eqn:Hsrc,
             (resolve st (args !! 1)); try done.
    simpl. unfold deleteFile, resolve in *. simpl. rewrite Hsrc.
    rewrite await_currentDir; [done|]. intros st'. by destruct (fs_unlink _ _).
  - unfold deleteFile. destruct (resolve st _); [|done].
    apply await_currentDir. intros st'. by destruct (fs_unlink _ _).
  - unfold handleOSCommand. destruct (args !! 0) as [o|]; [|done].
    repeat match goal with
           | |- context [if String.eqb o ?v then _ else _] =>
               destruct (String.eqb o v)
           end; try done.
    simpl. by rewrite (fold_left_frame currentDir).
  - unfold calculateHash. by destruct (resolve st _).
  - unfold compressFile. by destruct (resolve st (args !! 0)), (resolve st (args !! 1)).
  - unfold decompressFile. by destruct (resolve st (args !! 0)), (resolve st (args !! 1)).
Qed.
End Frame.

(** ** The line listener *)

Section Listener.
Context `{Platform}.

Lemma tokenize_blank input : all_whitespace input → tokenize input = (EmptyString, []).
Proof. intros Hws. unfold tokenize. by rewrite trim_all_whitespace. Qed.

Lemma empty_verb_unknown : EmptyString ∉ commands.
Proof. unfold commands. repeat (apply not_elem_of_cons; split; [done|]). apply not_elem_of_nil. Qed.

Lemma onLine_unknown bg input st :
  running st = true → (tokenize input).1 ∉ commands →
  onLine bg input st = emit Prompt (console_log "Invalid input" st).
Proof.
  intros Hrun Hnot. destruct (tokenize input) as [command args] eqn:Htok.
  rewrite (onLine_eq _ _ _ _ _ Hrun Htok), dispatch_unknown by done.
  change (running (console_log "Invalid input" st)) with (running st).
  by rewrite Hrun.
Qed.

(** C10. An empty line, or a line of whitespace only, prints
    [Invalid input] and shows the prompt again; the current directory,
    the filesystem, the pending streams and the process are as they
    were: trimmed and split, the line has the empty verb, which is none
    of the commands. *)
Theorem blank_line_is_invalid_input bg input st :
  running st = true → all_whitespace input →
  onLine bg input st = emit Prompt (console_log "Invalid input" st).
Proof.
  intros Hrun Hws. apply onLine_unknown; [done|].
  rewrite tokenize_blank by done. apply empty_verb_unknown.
Qed.

(** C7. A line whose verb is none of the commands prints exactly
    [Invalid input] (and the prompt) and changes nothing else; and
    whatever the line, unless its verb is [cd] or [up] the current
    directory is the same after the listener has run, and still the
    same when the streams it set up have ended. *)
Theorem only_navigation_changes_cwd bg input st :
  running st = true →
  ((tokenize input).1 ∉ commands →
     onLine bg input st = emit Prompt (console_log "Invalid input" st))
  ∧ ((tokenize input).1 ≠ "cd" → (tokenize input).1 ≠ "up" →
       currentDir (onLine bg input st) = currentDir st
       ∧ currentDir (settle (onLine bg input st)) = currentDir st).
Proof.
  intros Hrun. split; [by apply onLine_unknown|].
  intros Hcd Hup.
  assert (Hline : currentDir (onLine bg input st) = currentDir st).
  { rewrite onLine_currentDir, Hrun. by apply dispatch_currentDir. }
  split; [done|]. by rewrite settle_currentDir.
Qed.

(** C5. [up] in a directory other than the root makes the parent the
    current directory and prints it; in the root it leaves the current
    directory as it is and prints the notice.  In both cases the prompt
    follows and nothing else changes.  The current directory is a
    normalized absolute path, as [path.resolve] leaves it:
    [absolute segs], the root when [segs] is empty; the state after the
    line is given field by field. *)
Theorem up_goes_to_parent bg input args st segs :
  running st = true → tokenize input = ("up", args) →
  Forall (λ s, is_segment s = true) segs → currentDir st = absolute segs →
  (segs = [] ↔ currentDir st = "/")
  ∧ currentDir (onLine bg input st) = absolute (removelast segs)
  ∧ onLine bg input st =
    match segs with
    | [] =>
        State "/" (fs st)
          (out st ++ [Log "You are at the root directory."; Prompt])
          (pending st) (status st)
    | _ :: _ =>
        State (absolute (removelast segs)) (fs st)
          (out st ++ [Log ("You are currently in " +:+ absolute (removelast segs)); Prompt])
          (pending st) (status st)
    end.
Proof.
  intros Hrun Htok Hsegs Hcwd.
  assert (Hroot : segs = [] ↔ currentDir st = "/").
  { rewrite Hcwd. pose proof (absolute_root_iff segs Hsegs) as Hiff. split.
    - by intros ->.
    - intros Heq. rewrite Heq in Hiff. by destruct segs. }
  assert (Hline : onLine bg input st =
    match segs with
    | [] =>
        State "/" (fs st)
          (out st ++ [Log "You are at the root directory."; Prompt])
          (pending st) (status st)
    | _ :: _ =>
        State (absolute (removelast segs)) (fs st)
          (out st ++ [Log ("You are currently in " +:+ absolute (removelast segs)); Prompt])
          (pending st) (status st)
    end).
  { rewrite (onLine_eq _ _ _ _ _ Hrun Htok).
    change (dispatch bg "up" args st) with (navigateUp st).
    unfold navigateUp, resolve, path_resolve, path_root.
    rewrite Hcwd, isAbsolute_absolute.
    rewrite absolute_root_iff by done.
    destruct segs as [|p ps _] using rev_ind.
    - cbn [is_nil negb]. change (running (console_log _ st)) with (running st).
      rewrite Hrun. unfold console_log, emit. cbn [currentDir fs out pending status].
      by rewrite Hcwd, <- app_assoc.
    - apply Forall_app in Hsegs as [Hps Hp]. inversion Hp; subst.
      assert (Hnil : is_nil (ps ++ [p]) = false) by by destruct ps.
      rewrite Hnil. cbn [negb].
      cbn [fmap option_fmap option_map].
      rewrite resolve_path_absolute by (apply Forall_app; split; done).
      change (isAbsolute "..") with false. cbv iota.
      rewrite normalize_parent by done.
      rewrite removelast_last.
      change (running (console_log _ (set_currentDir (absolute ps) st))) with (running st).
      rewrite Hrun. unfold console_log, emit, set_currentDir.
      cbn [currentDir fs out pending status]. rewrite <- app_assoc.
      by destruct ps. }
  split; [done|]. split; [|done].
  rewrite Hline. by destruct segs.
Qed.

(** C1 (what the code does). A line whose verb needs a path and has
    none, or needs two and has fewer, ends the listener in a rejection:
    [path.resolve] throws on the undefined argument, outside every
    [try] block.  Nothing is printed, the prompt is not shown again,
    and the unhandled rejection ends the process. *)
Theorem missing_argument_is_fatal bg input command args st :
  running st = true → tokenize input = (command, args) →
  (command ∈ ["cat"; "add"; "rm"; "hash"] ∧ args = [])
  ∨ (command ∈ ["rn"; "cp"; "mv"; "compress"; "decompress"] ∧ length args < 2) →
  onLine bg input st = set_status Crashed st.
Proof.
  intros Hrun Htok Hcase. rewrite (onLine_eq _ _ _ _ _ Hrun Htok).
  destruct Hcase as [[Hcmd ->]|[Hcmd Hlen]].
  - repeat (apply elem_of_cons in Hcmd as [->|Hcmd]; [reflexivity|]).
    by apply elem_of_nil in Hcmd.
  - destruct args as [|a [|b args]]; [| |simpl in Hlen; lia].
    + repeat (apply elem_of_cons in Hcmd as [->|Hcmd]; [reflexivity|]).
      by apply elem_of_nil in Hcmd.
    + repeat (apply elem_of_cons in Hcmd as [->|Hcmd];
              [unfold dispatch;
               cbn [String.eqb Ascii.eqb Bool.eqb lookup list_lookup];
               unfold renameFile, moveFile, copyFile, compressFile, decompressFile;
               by destruct (resolve st (Some a))|]).
      by apply elem_of_nil in Hcmd.
Qed.

(** The handlers that do reject a missing argument: [cd], which
    resolves inside its [try] block, and [os], whose [switch] has a
    default. *)
Lemma cd_without_argument bg input st :
  running st = true → tokenize input = ("cd", []) →
  onLine bg input st = emit Prompt (console_log "Invalid input" st).
Proof.
  intros Hrun Htok. rewrite (onLine_eq _ _ _ _ _ Hrun Htok). cbn.
  change (running (console_log _ st)) with (running st). by rewrite Hrun.
Qed.

Lemma os_without_flag bg input st :
  running st = true → tokenize input = ("os", []) →
  onLine bg input st = emit Prompt (console_log "Invalid input" st).
Proof.
  intros Hrun Htok. rewrite (onLine_eq _ _ _ _ _ Hrun Htok). cbn.
  change (running (console_log _ st)) with (running st). by rewrite Hrun.
Qed.
End Listener.

(** ** The filesystem *)

#[local] Arguments walk : simpl never.
#[local] Arguments namei : simpl never.
#[local] Arguments write_data : simpl never.
#[local] Arguments fresh_ino : simpl never.

Lemma walk_nil fuel ns follow cur : walk fuel ns follow cur [] = Some cur.
Proof. by destruct fuel. Qed.

Lemma walk_cons fuel ns follow cur c rest :
  walk fuel ns follow cur (c :: rest) =
  if String.eqb c ".." then walk fuel ns follow (removelast cur) rest
  else
    match ns !! (cur ++ [c]) with
    | Some (ELink target) =>
        if is_nil rest && negb follow then Some (cur ++ [c])
        else if String.eqb target EmptyString then None
        else
          match fuel with
          | O => None
          | S fuel' =>
              walk fuel' ns follow
                (if isAbsolute target then [] else cur)
                (components target ++ rest)
          end
    | Some (EDir _) => walk fuel ns follow (cur ++ [c]) rest
    | Some (EFile _) => if is_nil rest then Some (cur ++ [c]) else None
    | None => if is_nil rest then Some (cur ++ [c]) else None
    end.
Proof. by destruct fuel. Qed.

(** A file created where there was nothing does not change where a path
    that resolved leads. *)
Lemma walk_insert_file fuel ns follow cur comps loc k i :
  ns !! k = None →
  walk fuel ns follow cur comps = Some loc →
  walk fuel (<[k := EFile i]> ns) follow cur comps = Some loc.
Proof.
  intros Hk. revert cur comps.
  induction fuel as [|fuel IHfuel]; intros cur comps;
    revert cur; induction comps as [|c rest IHrest]; intros cur;
    rewrite ?walk_nil, ?walk_cons; try done.
  - destruct (String.eqb c ".."); [apply IHrest|].
    destruct (decide (cur ++ [c] = k)) as [->|Hne].
    + rewrite Hk, lookup_insert_eq. done.
    + rewrite lookup_insert_ne by done.
      destruct (ns !! (cur ++ [c])) as [[j|w|target]|]; try done.
      apply IHrest.
  - destruct (String.eqb c ".."); [apply IHrest|].
    destruct (decide (cur ++ [c] = k)) as [->|Hne].
    + rewrite Hk, lookup_insert_eq. done.
    + rewrite lookup_insert_ne by done.
      destruct (ns !! (cur ++ [c])) as [[j|w|target]|]; try done; [apply IHrest|].
      destruct (is_nil rest && negb follow); [done|].
      destruct (String.eqb target EmptyString); [done|]. apply IHfuel.
Qed.

Lemma fresh_ino_bound (tbl : gmap nat file) i :
  is_Some (tbl !! i) → i < fresh_ino tbl.
Proof.
  unfold fresh_ino.
  apply (map_fold_weak_ind
           (λ r (m : gmap nat file), is_Some (m !! i) → i < S r)).
  - rewrite lookup_empty. by intros [? ?].
  - intros k f m r Hnone IH. rewrite lookup_insert.
    destruct (decide (k = i)) as [->|Hne]; [lia|]. intros Hi. specialize (IH Hi). lia.
Qed.

Lemma fresh_ino_fresh (tbl : gmap nat file) : tbl !! fresh_ino tbl = None.
Proof.
  destruct (tbl !! fresh_ino tbl) eqn:Hf; [|done].
  assert (fresh_ino tbl < fresh_ino tbl) by (apply fresh_ino_bound; eauto). lia.
Qed.

Lemma file_ino_names fs1 fs2 p :
  names fs1 = names fs2 → file_ino fs1 p = file_ino fs2 p.
Proof.
  destruct fs1 as [ns1 tbl1 w1], fs2 as [ns2 tbl2 w2]. cbn [names]. intros ->.
  unfold file_ino, namei, entry_at. cbn [names root_writable].
  by destruct (walk SYMLOOP_MAX ns2 true [] (components p)) as [[|c loc]|].
Qed.

Lemma open_read_file_ino fs p i :
  open_read fs p = Some (RdFile i) →
  file_ino fs p = Some i ∧ ∃ f, inodes fs !! i = Some f ∧ f_readable f = true.
Proof.
  unfold open_read, file_ino. destruct (namei true fs p) as [loc|]; simpl; [|done].
  destruct (entry_at fs loc) as [[j|w|t]|]; simpl; try done.
  destruct (inodes fs !! j) as [f|] eqn:Hf; simpl; [|done].
  destruct (f_readable f) eqn:Hr; [|done]. intros [= ->]. eauto.
Qed.

Lemma read_file_spec fs p content :
  read_file fs p = Some content →
  ∃ i, open_read fs p = Some (RdFile i) ∧ read_data fs i = content.
Proof.
  unfold read_file. destruct (open_read fs p) as [[i|]|]; simpl; [|done..].
  intros [= <-]. eauto.
Qed.

Lemma namei_create follow fs p loc k i tbl w :
  names fs !! k = None → namei follow fs p = Some loc →
  namei follow (Filesystem (<[k := EFile i]> (names fs)) tbl w) p = Some loc.
Proof. intros Hk Hloc. unfold namei in *. by apply walk_insert_file. Qed.

(** What [open] for writing leaves behind: the path names the file
    opened, which is empty; no other file has changed; and the file is
    either the one the path named before, or a new one in a new entry. *)
Lemma open_write_spec fs p fs' i :
  open_write fs p = Some (fs', i) →
  file_ino fs' p = Some i
  ∧ (∃ f, inodes fs' !! i = Some f ∧ f_data f = [])
  ∧ (∀ k, k ≠ i → inodes fs' !! k = inodes fs !! k)
  ∧ (file_ino fs p = Some i ∧ names fs' = names fs
     ∨ file_ino fs p = None ∧ inodes fs !! i = None
       ∧ (∃ f, inodes fs' !! i = Some f ∧ f_readable f = true)).
Proof.
  unfold open_write, file_ino.
  destruct (namei true fs p) as [loc|] eqn:Hloc; simpl; [|done].
  destruct (entry_at fs loc) as [[j|w|t]|] eqn:Hent; simpl; try done.
  - destruct (inodes fs !! j) as [f|] eqn:Hf; simpl; [|done].
    destruct (f_writable f); [|done]. intros [= <- <-].
    change (namei true (set_inodes ?tbl fs) p) with (namei true fs p).
    rewrite Hloc. simpl.
    change (entry_at (set_inodes ?tbl fs) loc) with (entry_at fs loc). rewrite Hent.
    split; [done|]. split; [rewrite lookup_insert_eq; eauto|].
    split; [intros k Hk; by rewrite lookup_insert_ne|]. by left.
  - destruct (dir_writable fs (removelast loc)); [|done]. intros [= <- <-].
    assert (Hnone : names fs !! loc = None) by by destruct loc.
    assert (Hne : loc ≠ []) by by destruct loc.
    rewrite (namei_create _ _ _ loc) by done. simpl.
    split.
    { destruct loc; [done|]. simpl. by rewrite lookup_insert_eq. }
    split; [rewrite lookup_insert_eq; eauto|].
    split; [intros k Hk; by rewrite lookup_insert_ne|].
    right. split; [done|]. split; [apply fresh_ino_fresh|].
    rewrite lookup_insert_eq. eauto.
Qed.

Lemma file_ino_write_data fs i data p :
  file_ino (write_data i data fs) p = file_ino fs p.
Proof. by apply file_ino_names. Qed.

Lemma inodes_write_data fs i data k :
  inodes (write_data i data fs) !! k =
  if decide (i = k)
  then (λ f, File (f_data f ++ data) (f_readable f) (f_writable f)) <$> inodes fs !! i
  else inodes fs !! k.
Proof.
  unfold write_data. cbn [inodes set_inodes]. rewrite lookup_alter.
  destruct (decide (i = k)) as [->|]; done.
Qed.

Lemma read_data_write_data fs i data k :
  is_Some (inodes fs !! i) →
  read_data (write_data i data fs) k =
  if decide (i = k) then read_data fs i ++ data else read_data fs k.
Proof.
  intros [f Hf]. unfold read_data. rewrite inodes_write_data.
  destruct (decide (i = k)) as [->|]; [|done]. by rewrite Hf.
Qed.

(** ** The handlers on a quiet filesystem *)

Lemma lstat_directory_unlink fs p : fs_lstat fs p = Some KDir → fs_unlink fs p = None.
Proof.
  unfold fs_lstat, fs_unlink. destruct (namei false fs p) as [loc|]; simpl; [|done].
  by destruct (entry_at fs loc) as [[i|w|t]|].
Qed.

Lemma writeFile_empty_spec fs p fs' :
  fs_writeFile fs p [] = Some fs' →
  f_data <$> file_at fs' p = Some []
  ∧ (∀ k, file_ino fs' p ≠ Some k → inodes fs' !! k = inodes fs !! k).
Proof.
  unfold fs_writeFile. destruct (open_write fs p) as [[fs1 i]|] eqn:Hopen; cbn; [|done].
  intros [= <-]. apply open_write_spec in Hopen as (Hino & (f & Hf & Hdata) & Hothers & _).
  unfold file_at. rewrite file_ino_write_data, Hino. cbn. split.
  - rewrite inodes_write_data, decide_True, Hf by done. cbn.
    by rewrite Hdata.
  - intros k Hk. rewrite inodes_write_data, decide_False by congruence.
    apply Hothers. congruence.
Qed.

Lemma writeFile_succeeds fs p data :
  (∃ f, file_at fs p = Some f ∧ f_writable f = true) ∨ creatable fs p →
  is_Some (fs_writeFile fs p data).
Proof.
  unfold fs_writeFile, open_write, file_at, file_ino, creatable.
  intros [(f & Hf & Hw)|(loc & Hloc & Hent & Hdir)].
  - destruct (namei true fs p) as [loc|]; simpl in *; [|done].
    destruct (entry_at fs loc) as [[i|w|t]|]; simpl in *; try done.
    rewrite Hf. simpl. rewrite Hw. simpl. eauto.
  - rewrite Hloc. simpl. rewrite Hent, Hdir. simpl. eauto.
Qed.

Section Quiet.
Context `{Platform}.

(** C8. [cd p], where [p] is a symbolic link to a directory, prints
    [Invalid input] and leaves the current directory as it was: the
    handler asks [lstat], which reports the link and not the directory
    it leads to. *)
Theorem cd_to_link_is_invalid bg input dir rest st :
  running st = true → pending st = [] →
  tokenize input = ("cd", dir :: rest) →
  fs_lstat (fs st) (resolved st dir) = Some KLink →
  fs_stat (fs st) (resolved st dir) = Some KDir →
  onLine bg input st = emit Prompt (console_log "Invalid input" st).
Proof.
  intros Hrun Hq Htok Hlink _.
  rewrite (onLine_eq _ _ _ _ _ Hrun Htok).
  change (dispatch bg "cd" (dir :: rest) st) with (changeDirectory bg (Some dir) st).
  unfold changeDirectory.
  change (resolve st (Some dir)) with (Some (resolved st dir)). cbv iota.
  rewrite await_quiescent, Hlink by done.
  change (running (console_log _ st)) with (running st). by rewrite Hrun.
Qed.

(** C9. [rm p], where [p] names a directory, prints [Operation failed]
    and leaves the filesystem as it was: [unlink] does not remove
    directories. *)
Theorem rm_directory_fails bg input p rest st :
  running st = true → pending st = [] →
  tokenize input = ("rm", p :: rest) →
  fs_lstat (fs st) (resolved st p) = Some KDir →
  onLine bg input st = emit Prompt (console_log "Operation failed" st).
Proof.
  intros Hrun Hq Htok Hdir.
  rewrite (onLine_eq _ _ _ _ _ Hrun Htok).
  change (dispatch bg "rm" (p :: rest) st) with (deleteFile bg (Some p) st).
  unfold deleteFile.
  change (resolve st (Some p)) with (Some (resolved st p)). cbv iota.
  rewrite await_quiescent, lstat_directory_unlink by done.
  change (running (console_log _ st)) with (running st). by rewrite Hrun.
Qed.

(** C2 (amended). [add name] writes an empty file at the path resolved
    against the current directory: when the write succeeds it prints
    [File created], the path names an empty file and no other file has
    changed; when it fails it prints [Operation failed] and the
    filesystem is as it was.  The write succeeds when the path names a
    writable file, which it empties, and when nothing is there and the
    directory can be written. *)
Theorem add_writes_an_empty_file bg input name rest st :
  running st = true → pending st = [] →
  tokenize input = ("add", name :: rest) →
  match fs_writeFile (fs st) (resolved st name) [] with
  | Some fs' =>
      onLine bg input st = emit Prompt (console_log "File created" (set_fs fs' st))
      ∧ f_data <$> file_at fs' (resolved st name) = Some []
      ∧ (∀ k, file_ino fs' (resolved st name) ≠ Some k →
              inodes fs' !! k = inodes (fs st) !! k)
  | None =>
      onLine bg input st = emit Prompt (console_log "Operation failed" st)
  end
  ∧ ((∃ f, file_at (fs st) (resolved st name) = Some f ∧ f_writable f = true)
     ∨ creatable (fs st) (resolved st name) →
     is_Some (fs_writeFile (fs st) (resolved st name) [])).
Proof.
  intros Hrun Hq Htok. split; [|apply writeFile_succeeds].
  rewrite (onLine_eq _ _ _ _ _ Hrun Htok).
  change (dispatch bg "add" (name :: rest) st) with (createFile bg (Some name) st).
  unfold createFile.
  change (resolve st (Some name)) with (Some (resolved st name)). cbv iota.
  rewrite await_quiescent by done.
  destruct (fs_writeFile (fs st) (resolved st name) []) as [fs'|] eqn:Hwrite.
  - change (running (console_log _ (set_fs fs' st))) with (running st).
    rewrite Hrun. split; [done|]. by apply writeFile_empty_spec.
  - change (running (console_log _ st)) with (running st). by rewrite Hrun.
Qed.
End Quiet.

(** ** Streams *)

Lemma concat_chunks_go fuel size (data : bytes) :
  0 < size → length data ≤ fuel → concat (chunks_go fuel size data) = data.
Proof.
  intros Hsize. revert data. induction fuel as [|fuel IH]; intros data Hlen.
  - destruct data; [done|simpl in Hlen; lia].
  - destruct data as [|b data]; [done|].
    cbn [chunks_go concat]. rewrite IH, take_drop; [done|].
    rewrite length_drop. simpl in *. lia.
Qed.

Lemma highWaterMark_pos : 0 < highWaterMark.
Proof. unfold highWaterMark. lia. Qed.

(** The chunks of a read stream are the file, in order. *)
Lemma concat_read_chunks (data : bytes) : concat (read_chunks data) = data.
Proof. apply concat_chunks_go; [apply highWaterMark_pos|done]. Qed.

Lemma fold_hash_update chunks fed :
  fold_left hash_update chunks fed = fed ++ concat chunks.
Proof.
  revert fed. induction chunks as [|c chunks IH]; intros fed; simpl.
  - by rewrite app_nil_r.
  - rewrite IH. unfold hash_update. by rewrite app_assoc.
Qed.

Lemma hex_digit_lowercase n : is_lowercase_hex_digit (hex_digit n) = true.
Proof. do 16 (destruct n as [|n]; [done|]). done. Qed.

Lemma lowercase_hex_app s t :
  lowercase_hex (s +:+ t) = lowercase_hex s && lowercase_hex t.
Proof.
  unfold lowercase_hex. induction s as [|c s IH]; [done|].
  rewrite append_cons. simpl. by rewrite IH, andb_assoc.
Qed.

Lemma hex_lowercase data : lowercase_hex (hex data) = true.
Proof.
  induction data as [|b data IH]; [done|].
  cbn [hex]. rewrite lowercase_hex_app, IH. unfold hex_byte, lowercase_hex.
  cbn [list_ascii_of_string forallb]. by rewrite !hex_digit_lowercase.
Qed.

Lemma length_append s t :
  String.length (s +:+ t) = String.length s + String.length t.
Proof. induction s as [|c s IH]; [done|]. rewrite append_cons. simpl. by rewrite IH. Qed.

Lemma hex_length data : String.length (hex data) = 2 * length data.
Proof.
  induction data as [|b data IH]; [done|].
  cbn [hex]. rewrite length_append, IH. simpl. lia.
Qed.

Section StreamFacts.
Context `{Platform}.

Lemma settle_single s st :
  pending st = [s] → running st = true → settle st = finish s (set_pending [] st).
Proof.
  intros Hp Hrun. unfold settle. rewrite Hp. simpl.
  change (running (set_pending [] st)) with (running st). by rewrite Hrun.
Qed.

Lemma settle_not_running st : running st = false → running (settle st) = false.
Proof.
  intros Hrun. unfold settle.
  assert (Hgen : ∀ l a, running a = false →
            running (fold_left (λ st s, if running st then finish s st else st) l a) = false).
  { induction l as [|s l IH]; intros a Ha; simpl; [done|]. apply IH. by rewrite Ha. }
  by apply Hgen.
Qed.

Lemma onLine_not_running bg input st : running st = false → onLine bg input st = st.
Proof. intros Hrun. unfold onLine. by rewrite Hrun. Qed.

(** A line that only sets up a stream, on a quiet session: the prompt
    is shown, and the stream runs when the event loop is reached. *)
Lemma settle_pipe source p st :
  running st = true → pending st = [] →
  settle (emit Prompt (pipe source p st))
  = finish (Stream source p Constructed) (emit Prompt st).
Proof.
  intros Hrun Hq. rewrite (settle_single (Stream source p Constructed)).
  - f_equal. destruct st; simpl in *; by subst.
  - simpl. by rewrite Hq.
  - done.
Qed.

(** [calculateHash] on a quiet session. *)
Lemma finish_hash source st :
  running st = true →
  finish (Stream source ToHash Constructed) st =
  match read_file (fs st) source with
  | Some content => console_log (hex (sha256 content)) st
  | None => console_log "Operation failed" st
  end.
Proof.
  unfold running. destruct (status st) eqn:Hstatus; [intros _|done..].
  unfold finish, stream_step, stream_open, read_file, running. cbn.
  destruct (open_read (fs st) source) as [[i|]|]; cbn; rewrite ?Hstatus; cbn.
  - by rewrite fold_hash_update, concat_read_chunks.
  - done.
  - done.
Qed.

(** A Brotli pipeline on a running session leaves it running only if
    both files opened and the codec accepted the data; the destination
    then holds what the codec made of the source. *)
Lemma finish_brotli source c destination st :
  running st = true →
  running (finish (Stream source (ThroughBrotli c destination) Constructed) st) = true →
  ∃ i j fs1 data,
    open_read (fs st) source = Some (RdFile i)
    ∧ open_write (fs st) destination = Some (fs1, j)
    ∧ through_brotli c (read_data fs1 i) = Some data
    ∧ finish (Stream source (ThroughBrotli c destination) Constructed) st
      = set_fs (write_data j data fs1) st.
Proof.
  unfold running at 1. destruct (status st) eqn:Hstatus; [intros _|done..].
  unfold finish, stream_step, stream_open, running. cbn.
  destruct (open_read (fs st) source) as [[i|]|]; cbn.
  - destruct (open_write (fs st) destination) as [[fs1 j]|]; cbn; [|done].
    rewrite Hstatus. cbn. rewrite concat_read_chunks.
    destruct c; cbn.
    + rewrite Hstatus. intros _. by exists i, j, fs1, (brotliCompress (read_data fs1 i)).
    + destruct (brotliDecompress (read_data fs1 i)) as [data|] eqn:Hdec; cbn; [|done].
      intros _. by exists i, j, fs1, data.
  - destruct (open_write (fs st) destination) as [[fs1 j]|]; cbn; [|done].
    by rewrite Hstatus.
  - by destruct (open_write (fs st) destination) as [[fs1 j]|].
Qed.
End StreamFacts.

(** ** The commands that stream *)

Section Streaming.
Context `{Platform}.

Lemma hash_line bg input p rest st :
  running st = true → pending st = [] →
  tokenize input = ("hash", p :: rest) →
  settle (onLine bg input st) =
  match read_file (fs st) (resolved st p) with
  | Some content => console_log (hex (sha256 content)) (emit Prompt st)
  | None => console_log "Operation failed" (emit Prompt st)
  end.
Proof.
  intros Hrun Hq Htok. rewrite (onLine_eq _ _ _ _ _ Hrun Htok).
  change (dispatch bg "hash" (p :: rest) st)
    with (Fulfilled (pipe (resolved st p) ToHash st)).
  cbv beta iota. change (running (pipe _ _ st)) with (running st). rewrite Hrun.
  rewrite settle_pipe by done. by rewrite finish_hash.
Qed.

(** C6. [hash f] prints the digest of the content of [f] in lowercase
    hexadecimal, two digits a byte; a second [hash f] prints the same
    digest; and when [f] cannot be read, [Operation failed] is printed
    in its place.  (The prompt comes back before the stream ends, so
    it is printed first.) *)
Theorem hash_prints_the_digest bg bg' input p rest st :
  running st = true → pending st = [] →
  tokenize input = ("hash", p :: rest) →
  let st1 := settle (onLine bg input st) in
  match read_file (fs st) (resolved st p) with
  | Some content =>
      let digest := hex (sha256 content) in
      st1 = console_log digest (emit Prompt st)
      ∧ lowercase_hex digest = true
      ∧ String.length digest = 2 * length (sha256 content)
      ∧ settle (onLine bg' input st1) = console_log digest (emit Prompt st1)
  | None => st1 = console_log "Operation failed" (emit Prompt st)
  end.
Proof.
  intros Hrun Hq Htok st1.
  pose proof (hash_line bg input p rest st Hrun Hq Htok) as Hfirst.
  fold st1 in Hfirst.
  destruct (read_file (fs st) (resolved st p)) as [content|] eqn:Hread; [|done].
  split; [done|]. split; [apply hex_lowercase|]. split; [apply hex_length|].
  clearbody st1. subst st1.
  rewrite (hash_line bg' input p rest) by done.
  change (read_file (fs (console_log ?d (emit Prompt st)))
            (resolved (console_log ?d (emit Prompt st)) p))
    with (read_file (fs st) (resolved st p)).
  by rewrite Hread.
Qed.

Lemma brotli_line bg input verb c source destination rest st :
  running st = true → pending st = [] →
  tokenize input = (verb, source :: destination :: rest) →
  (verb = "compress" ∧ c = Compress ∨ verb = "decompress" ∧ c = Decompress) →
  settle (onLine bg input st) =
  finish (Stream (resolved st source) (ThroughBrotli c (resolved st destination))
            Constructed)
         (emit Prompt st).
Proof.
  intros Hrun Hq Htok Hverb. rewrite (onLine_eq _ _ _ _ _ Hrun Htok).
  destruct Hverb as [[-> ->]|[-> ->]].
  - change (dispatch bg "compress" (source :: destination :: rest) st)
      with (Fulfilled (pipe (resolved st source)
                         (ThroughBrotli Compress (resolved st destination)) st)).
    cbv beta iota. change (running (pipe _ _ st)) with (running st). rewrite Hrun.
    by rewrite settle_pipe.
  - change (dispatch bg "decompress" (source :: destination :: rest) st)
      with (Fulfilled (pipe (resolved st source)
                         (ThroughBrotli Decompress (resolved st destination)) st)).
    cbv beta iota. change (running (pipe _ _ st)) with (running st). rewrite Hrun.
    by rewrite settle_pipe.
Qed.

(** C4. [compress f dst] and then, when its stream has ended,
    [decompress dst f2] leave in [f2] the content of [f], whatever
    bytes that is, the empty content too.  This is for destinations
    that are not the file they are made from ([dst] is not [f], [f2] is
    not [dst]), for a session that is still running at the end (no
    stream met an error: the handlers do not listen for them), and for a
    codec that decodes what it encoded. *)
Theorem compress_then_decompress bg1 bg2 input1 input2 f dst f2 rest1 rest2 st content :
  (∀ data, brotliDecompress (brotliCompress data) = Some data) →
  running st = true → pending st = [] →
  tokenize input1 = ("compress", f :: dst :: rest1) →
  tokenize input2 = ("decompress", dst :: f2 :: rest2) →
  let st1 := settle (onLine bg1 input1 st) in
  let st2 := settle (onLine bg2 input2 st1) in
  read_file (fs st) (resolved st f) = Some content →
  file_ino (fs st) (resolved st dst) ≠ file_ino (fs st) (resolved st f) →
  file_ino (fs st1) (resolved st f2) ≠ file_ino (fs st1) (resolved st dst) →
  running st2 = true →
  f_data <$> file_at (fs st2) (resolved st f2) = Some content.
Proof.
  intros Hcodec Hrun Hq Htok1 Htok2 st1 st2 Hread Hdst Hf2 Hrun2.
  (* the first line *)
  assert (Hst1 : st1 = finish (Stream (resolved st f)
                                 (ThroughBrotli Compress (resolved st dst)) Constructed)
                         (emit Prompt st)).
  { subst st1. eapply brotli_line; eauto. }
  assert (Hrun1 : running st1 = true).
  { destruct (running st1) eqn:Hr; [done|]. subst st2.
    rewrite onLine_not_running, settle_not_running in Hrun2; done. }
  rewrite Hst1 in Hrun1.
  apply finish_brotli in Hrun1 as (i & j & fsA & data & Hopen_f & Hopen_dst & Hdata & Hfin);
    [|done].
  rewrite Hfin in Hst1. clear Hfin.
  cbn [fs emit] in Hopen_f, Hopen_dst.
  apply read_file_spec in Hread as (i' & Hopen_f' & Hcontent).
  rewrite Hopen_f in Hopen_f'. injection Hopen_f' as <-.
  apply open_read_file_ino in Hopen_f as (Hino_f & ff & Hff & _).
  pose proof (open_write_spec _ _ _ _ Hopen_dst)
    as (Hino_dst & (fd & Hfd & Hfd_data) & Hothers & Hcase).
  assert (Hij : i ≠ j).
  { intros ->. destruct Hcase as [[Hsame _]|(_ & Hnew & _)]; congruence. }
  assert (Hsrc : read_data fsA i = content).
  { unfold read_data in *. by rewrite Hothers. }
  cbn [through_brotli] in Hdata. rewrite Hsrc in Hdata. injection Hdata as <-.
  set (fsB := write_data j (brotliCompress content) fsA) in *.
  assert (Hfs1 : fs st1 = fsB) by by rewrite Hst1.
  assert (Hdst_B : file_ino fsB (resolved st dst) = Some j).
  { subst fsB. by rewrite file_ino_write_data. }
  assert (Hdata_B : read_data fsB j = brotliCompress content).
  { subst fsB. rewrite read_data_write_data, decide_True by eauto.
    unfold read_data. rewrite Hfd. cbn. by rewrite Hfd_data. }
  assert (Hj_B : is_Some (inodes fsB !! j)).
  { subst fsB. rewrite inodes_write_data, decide_True, Hfd by done. eauto. }
  (* the second line *)
  assert (Hrun1 : running st1 = true) by by rewrite Hst1.
  assert (Hq1 : pending st1 = []) by by rewrite Hst1.
  assert (Hcwd1 : ∀ p, resolved st1 p = resolved st p) by by rewrite Hst1.
  assert (Hst2 : st2 = finish (Stream (resolved st dst)
                                 (ThroughBrotli Decompress (resolved st f2)) Constructed)
                         (emit Prompt st1)).
  { subst st2. rewrite <- !Hcwd1. eapply brotli_line; eauto. }
  rewrite Hst2 in Hrun2.
  apply finish_brotli in Hrun2 as (i2 & k & fsC & data & Hopen_dst2 & Hopen_f2 & Hdata & Hfin);
    [|done].
  rewrite Hfin in Hst2. clear Hfin.
  cbn [fs emit] in Hopen_dst2, Hopen_f2. rewrite Hfs1 in *.
  apply open_read_file_ino in Hopen_dst2 as (Hino_dst2 & _).
  rewrite Hdst_B in Hino_dst2. injection Hino_dst2 as <-.
  pose proof (open_write_spec _ _ _ _ Hopen_f2)
    as (Hino_f2 & (fk & Hfk & Hfk_data) & Hothers2 & Hcase2).
  assert (Hjk : j ≠ k).
  { intros ->. destruct Hcase2 as [[Hsame _]|(_ & Hnew & _)].
    - congruence.
    - rewrite Hnew in Hj_B. by destruct Hj_B. }
  assert (Hsrc2 : read_data fsC j = brotliCompress content).
  { rewrite <- Hdata_B. unfold read_data. by rewrite Hothers2. }
  cbn [through_brotli] in Hdata. rewrite Hsrc2, Hcodec in Hdata. injection Hdata as <-.
  rewrite Hst2. cbn [fs set_fs].
  unfold file_at. rewrite file_ino_write_data, Hino_f2. cbn.
  rewrite inodes_write_data, decide_True, Hfk by done. cbn.
  by rewrite Hfk_data.
Qed.
End Streaming.

(** ** The current directory stays a normalized absolute path *)

Section Invariant.
Context `{Platform}.

Lemma resolved_cwd_ok st p :
  cwd_ok st → cwd_ok (set_currentDir (resolved st p) st).
Proof.
  intros (segs & Hsegs & Hcwd). unfold cwd_ok, resolved. rewrite Hcwd. cbn.
  destruct (resolve_path_ok process_cwd segs p Hsegs) as (segs' & Hsegs' & ->).
  eauto.
Qed.

Lemma dispatch_cwd_ok bg command args st :
  cwd_ok st → cwd_ok (final (dispatch bg command args st)).
Proof.
  intros Hok.
  assert (Hsame : ∀ st', currentDir st' = currentDir st → cwd_ok st').
  { intros st' Heq. unfold cwd_ok. by rewrite Heq. }
  destruct (decide (command = "up")) as [->|Hup].
  { change (dispatch bg "up" args st) with (navigateUp st). unfold navigateUp.
    destruct (negb _); [|by apply Hsame].
    change (resolve st (Some "..")) with (Some (resolved st "..")). cbn.
    destruct (resolved_cwd_ok st ".." Hok) as (segs & Hsegs & Hcwd). by exists segs. }
  destruct (decide (command = "cd")) as [->|Hcd].
  { change (dispatch bg "cd" args st) with (changeDirectory bg (args !! 0) st).
    unfold changeDirectory. destruct (args !! 0) as [dir|]; [|by apply Hsame].
    change (resolve st (Some dir)) with (Some (resolved st dir)). cbv iota.
    unfold await. destruct (running (background bg st)); cbn;
      [|apply Hsame, background_currentDir].
    destruct (fs_lstat _ _) as [[]|]; cbn;
      try (apply Hsame, background_currentDir).
    destruct (resolved_cwd_ok st dir Hok) as (segs & Hsegs & Hcwd). by exists segs. }
  apply Hsame. by apply dispatch_currentDir.
Qed.

(** Every state of a session that started in a normalized absolute
    home directory satisfies [cwd_ok]. *)
Lemma onLine_cwd_ok bg input st : cwd_ok st → cwd_ok (onLine bg input st).
Proof.
  intros Hok. unfold cwd_ok. rewrite onLine_currentDir.
  destruct (running st); [|done]. by apply dispatch_cwd_ok.
Qed.

Lemma settle_cwd_ok st : cwd_ok st → cwd_ok (settle st).
Proof. unfold cwd_ok. by rewrite settle_currentDir. Qed.

Lemma start_cwd_ok fs0 segs :
  Forall (λ s, is_segment s = true) segs → os_homedir = absolute segs →
  cwd_ok (start fs0).
Proof. intros Hsegs Hhome. by exists segs. Qed.

(** ** [mv] *)

(** [moveFile] is [copyFile], then [deleteFile] on the source. *)
Lemma mv_is_cp_then_rm bg args st :
  dispatch bg "mv" args st = and_then (dispatch bg "cp" args st) (dispatch bg "rm" args).
Proof. reflexivity. Qed.

(** [copyFile] ends as soon as the streams are set up: nothing has
    been read or written when [moveFile] goes on to [deleteFile]. *)
Lemma copyFile_only_sets_up source destination st :
  copyFile (Some source) (Some destination) st
  = Fulfilled (pipe (resolved st source) (ToFile (resolved st destination)) st)
  ∧ fs (pipe (resolved st source) (ToFile (resolved st destination)) st) = fs st.
Proof. done. Qed.

(** So [deleteFile] runs on a session in which the copy is a stream that
    has not even opened its files. *)
Lemma moveFile_deletes_with_the_copy_pending bg source destination st :
  moveFile bg (Some source) (Some destination) st
  = deleteFile bg (Some source)
      (set_pending
         (pending st ++ [Stream (resolved st source) (ToFile (resolved st destination))
                           Constructed])
         st).
Proof. reflexivity. Qed.
End Invariant.

(** ** The program at work *)

(** C3 (what the code does). [mv a.txt b.txt] in the home directory of
    the small world.  When both ends of the copy are opened before the
    source is unlinked, the handler is done (and says [File deleted])
    while the copy has not moved a byte: the source is gone and the
    destination is empty; the data arrives afterwards, read through the
    descriptor that was open.  When the unlink comes first, the copy
    finds no source: the destination stays empty and the content is lost. *)
Theorem mv_deletes_before_the_copy_ends :
  let source := "/home/u/a.txt" in
  let destination := "/home/u/b.txt" in
  read_file (fs demo) source = Some [x68; x69]
  ∧ (let st1 := onLine [0] "mv a.txt b.txt" demo in
     out st1 = out demo ++ [Log "File deleted"; Prompt]
     ∧ fs_lstat (fs st1) source = None
     ∧ read_file (fs st1) destination = Some []
     ∧ pending st1 = [Stream source (ToFile destination) (Opened (RdFile 1) (Some 4))]
     ∧ read_file (fs (settle st1)) destination = Some [x68; x69])
  ∧ (let st2 := settle (onLine [] "mv a.txt b.txt" demo) in
     out st2 = out demo ++ [Log "File deleted"; Prompt; Log "Operation failed"]
     ∧ fs_lstat (fs st2) source = None
     ∧ read_file (fs st2) destination = Some []).
Proof. vm_compute. repeat split; reflexivity. Qed.

(** The copy that ended before a delete that fails is kept: [/etc]
    cannot be written, so [motd] stays, and so does its copy. *)
Example mv_keeps_the_copy_when_delete_fails :
  let st1 := settle (onLine [0; 0] "mv /etc/motd m.txt" demo) in
  out st1 = out demo ++ [Log "Operation failed"; Prompt]
  ∧ read_file (fs st1) "/etc/motd" = Some [x6f; x6b]
  ∧ read_file (fs st1) "/home/u/m.txt" = Some [x6f; x6b].
Proof. vm_compute. repeat split; reflexivity. Qed.

(** [cp] and then, once the copy has ended, [rm]. *)
Example cp_then_rm :
  let st1 := settle (onLine [] "rm a.txt" (settle (onLine [] "cp a.txt b.txt" demo))) in
  out st1 = out demo ++ [Prompt; Log "File deleted"; Prompt]
  ∧ fs_lstat (fs st1) "/home/u/a.txt" = None
  ∧ read_file (fs st1) "/home/u/b.txt" = Some [x68; x69].
Proof. vm_compute. repeat split; reflexivity. Qed.

(** C2 (as stated, it fails). [a.txt] exists, and [add a.txt] does not
    fail: it prints [File created] and has emptied the file. *)
Lemma add_on_an_existing_file :
  let st1 := onLine [] "add a.txt" demo in
  read_file (fs demo) "/home/u/a.txt" = Some [x68; x69]
  ∧ out st1 = out demo ++ [Log "File created"; Prompt]
  ∧ read_file (fs st1) "/home/u/a.txt" = Some []
  ∧ ¬ (out st1 = out demo ++ [Log "Operation failed"; Prompt] ∧ fs st1 = fs demo).
Proof.
  vm_compute. repeat split; try reflexivity. intros [Hout _]. discriminate Hout.
Qed.

(** [cat] with no path. *)
Example cat_without_a_path : onLine [] "cat" demo = set_status Crashed demo.
Proof. reflexivity. Qed.

Example session :
  out (settle (onLine [] "hash a.txt" (onLine [] "up" (onLine [] "cd docs" demo))))
  = [ Log "Welcome to the File Manager, Ann!"; Log "You are currently in /home/u"; Prompt;
      Log "You are currently in /home/u/docs"; Prompt;
      Log "You are currently in /home/u"; Prompt;
      Prompt; Log "6968" ].
Proof. vm_compute. reflexivity. Qed.

Example tokenize_keeps_empty_pieces :
  tokenize " rn a  b" = ("rn", ["a"; EmptyString; "b"]).
Proof. reflexivity. Qed.

Example resolve_collapses_dots :
  resolve_path "/srv" "/home/u" "../x/./y/" = "/home/x/y"
  ∧ resolve_path "/srv" "/home/u" "/../.." = "/"
  ∧ resolve_path "/srv" "/home/u" EmptyString = "/home/u".
Proof. repeat split; reflexivity. Qed.

(** ** Witnesses *)

Lemma blank_line_witness :
  all_whitespace "   "
  ∧ onLine [] "   " demo = emit Prompt (console_log "Invalid input" demo).
Proof.
  split; [repeat constructor|].
  apply (blank_line_is_invalid_input [] "   " demo); [reflexivity|repeat constructor].
Defined.

Lemma unknown_verb_witness :
  running demo = true
  ∧ ((tokenize "frobnicate").1 ∉ commands)
  ∧ onLine [] "frobnicate" demo = emit Prompt (console_log "Invalid input" demo)
  ∧ currentDir (settle (onLine [] "ls" demo)) = currentDir demo.
Proof.
  split; [reflexivity|].
  assert (Hnot : (tokenize "frobnicate").1 ∉ commands).
  { unfold commands. cbn. repeat (apply not_elem_of_cons; split; [done|]).
    apply not_elem_of_nil. }
  split; [exact Hnot|]. split.
  - by apply (only_navigation_changes_cwd [] "frobnicate" demo).
  - by apply (only_navigation_changes_cwd [] "ls" demo).
Defined.

Lemma up_witness :
  currentDir demo = "/home/u"
  ∧ currentDir (onLine [] "up" demo) = "/home"
  ∧ out (onLine [] "up" demo) = out demo ++ [Log "You are currently in /home"; Prompt]
  ∧ currentDir (onLine [] "up" (set_currentDir "/" demo)) = "/"
  ∧ out (onLine [] "up" (set_currentDir "/" demo))
    = out demo ++ [Log "You are at the root directory."; Prompt].
Proof.
  assert (Hsegs : Forall (λ s, is_segment s = true) ["home"; "u"])
    by by repeat constructor.
  destruct (up_goes_to_parent [] "up" [] demo ["home"; "u"]
              eq_refl eq_refl Hsegs eq_refl) as (_ & Hcwd & Hline).
  destruct (up_goes_to_parent [] "up" [] (set_currentDir "/" demo) []
              eq_refl eq_refl (List.Forall_nil _) eq_refl) as (_ & Hcwd0 & Hline0).
  split; [reflexivity|]. split; [exact Hcwd|].
  split; [by rewrite Hline|]. split; [exact Hcwd0|]. by rewrite Hline0.
Defined.

Lemma missing_argument_witness :
  tokenize "rn a.txt" = ("rn", ["a.txt"])
  ∧ onLine [] "rn a.txt" demo = set_status Crashed demo.
Proof.
  split; [reflexivity|].
  apply (missing_argument_is_fatal [] "rn a.txt" "rn" ["a.txt"] demo);
    [reflexivity|reflexivity|].
  right. split; [|cbn; lia]. apply elem_of_cons. by left.
Defined.

Lemma cd_to_link_witness :
  fs_lstat (fs demo) (resolved demo "lnk") = Some KLink
  ∧ fs_stat (fs demo) (resolved demo "lnk") = Some KDir
  ∧ onLine [] "cd lnk" demo = emit Prompt (console_log "Invalid input" demo).
Proof.
  split; [by vm_compute|]. split; [by vm_compute|].
  apply (cd_to_link_is_invalid [] "cd lnk" "lnk" [] demo);
    [reflexivity|reflexivity|reflexivity|by vm_compute|by vm_compute].
Defined.

Lemma rm_directory_witness :
  fs_lstat (fs demo) (resolved demo "docs") = Some KDir
  ∧ onLine [] "rm docs" demo = emit Prompt (console_log "Operation failed" demo).
Proof.
  split; [by vm_compute|].
  apply (rm_directory_fails [] "rm docs" "docs" [] demo);
    [reflexivity|reflexivity|reflexivity|by vm_compute].
Defined.

Lemma add_witness :
  creatable (fs demo) (resolved demo "new.txt")
  ∧ out (onLine [] "add new.txt" demo) = out demo ++ [Log "File created"; Prompt]
  ∧ read_file (fs (onLine [] "add new.txt" demo)) (resolved demo "new.txt") = Some [].
Proof.
  assert (Hnew : creatable (fs demo) (resolved demo "new.txt")).
  { exists ["home"; "u"; "new.txt"]. by vm_compute. }
  split; [exact Hnew|].
  destruct (add_writes_an_empty_file [] "add new.txt" "new.txt" [] demo
              eq_refl eq_refl eq_refl) as [Hline Hsucceeds].
  destruct (Hsucceeds (or_intror Hnew)) as [fs' Hwrite].
  rewrite Hwrite in Hline. destruct Hline as (-> & _ & _).
  assert (Hfs : Some fs' = fs_writeFile (fs demo) (resolved demo "new.txt") []) by done.
  vm_compute in Hfs. injection Hfs as ->. by vm_compute.
Defined.

Lemma hash_witness :
  read_file (fs demo) (resolved demo "a.txt") = Some [x68; x69]
  ∧ out (settle (onLine [] "hash a.txt" demo)) = out demo ++ [Prompt; Log "6968"].
Proof.
  split; [by vm_compute|].
  pose proof (hash_prints_the_digest [] [] "hash a.txt" "a.txt" [] demo
                eq_refl eq_refl eq_refl) as Hhash.
  cbv zeta in Hhash.
  replace (read_file (fs demo) (resolved demo "a.txt")) with (Some [x68; x69]) in Hhash
    by by vm_compute.
  destruct Hhash as (-> & _). by vm_compute.
Defined.

Lemma compress_then_decompress_witness :
  read_file (fs demo) (resolved demo "a.txt") = Some [x68; x69]
  ∧ f_data <$> file_at
      (fs (settle (onLine [] "decompress a.z b.txt"
                     (settle (onLine [] "compress a.txt a.z" demo)))))
      (resolved demo "b.txt")
    = Some [x68; x69].
Proof.
  split; [by vm_compute|].
  apply (compress_then_decompress [] [] "compress a.txt a.z" "decompress a.z b.txt"
           "a.txt" "a.z" "b.txt" [] [] demo [x68; x69]).
  - done.
  - reflexivity.
  - reflexivity.
  - reflexivity.
  - reflexivity.
  - by vm_compute.
  - by vm_compute.
  - by vm_compute.
  - by vm_compute.
Defined.

(** * More of the program *)

(** ** The tokenizer *)

Lemma join_split sep s : join (String sep EmptyString) (split sep s) = s.
Proof.
  induction s as [|c s IH]; [done|]. simpl.
  pose proof (split_not_nil sep s) as Hne.
  destruct (Ascii.eqb c sep) eqn:Hc.
  - apply Ascii.eqb_eq in Hc as ->.
    destruct (split sep s) as [|w ws]; [done|]. by rewrite join_cons, IH.
  - destruct (split sep s) as [|w [|w' ws]]; [done|simpl in *; by rewrite IH|].
    rewrite join_cons. rewrite join_cons in IH. by rewrite append_cons, IH.
Qed.

(** The verb and the arguments are the trimmed line cut at every space:
    no piece holds a space (an argument with a space in it cannot be
    written), and joined by spaces again they are the trimmed line, so
    nothing else is dropped and two spaces in a row make an empty
    argument. *)
Theorem tokenize_cuts_at_spaces input :
  free_of " " (tokenize input).1 = true
  ∧ Forall (λ a, free_of " " a = true) (tokenize input).2
  ∧ join " " ((tokenize input).1 :: (tokenize input).2) = trim input.
Proof.
  unfold tokenize.
  pose proof (split_pieces_free " " (trim input)) as Hfree.
  pose proof (join_split " " (trim input)) as Hjoin.
  destruct (split " " (trim input)) as [|command args] eqn:Hsplit.
  - by apply split_not_nil in Hsplit.
  - inversion Hfree; subst. done.
Qed.

(** ** The user name *)

Lemma find_skips {A} (f : A → bool) pre x post :
  Forall (λ a, f a = false) pre → f x = true →
  List.find f (pre ++ x :: post) = Some x.
Proof.
  intros Hpre Hx. induction Hpre as [|a pre Ha _ IH]; simpl.
  - by rewrite Hx.
  - by rewrite Ha.
Qed.

Lemma find_none {A} (f : A → bool) l :
  Forall (λ a, f a = false) l → List.find f l = None.
Proof. intros Hl. induction Hl as [|a l Ha _ IH]; simpl; [done|]. by rewrite Ha. Qed.

Lemma startsWith_append p s : startsWith p (p +:+ s) = true.
Proof.
  unfold startsWith. induction p as [|c p IH]; [by destruct s|].
  rewrite append_cons. simpl. by destruct (ascii_dec c c).
Qed.

(** The user is [User] unless an argument starts with [--username=];
    the first such argument names the user, by what stands between its
    first [=] and its next one (all of the rest when there is no other:
    [--username=a=b] greets [a], and [--username=] greets the empty
    name). *)
Theorem username_is_read_from_the_first_flag `{Platform} :
  (Forall (λ a, startsWith "--username=" a = false) process_args → username = "User")
  ∧ (∀ pre name post,
       process_args = pre ++ ("--username=" +:+ name) :: post →
       Forall (λ a, startsWith "--username=" a = false) pre →
       ∃ rest, split "=" name = username :: rest).
Proof.
  split.
  - intros Hnone. unfold username. by rewrite find_none.
  - intros pre name post Hargs Hpre. unfold username.
    rewrite Hargs, (find_skips _ pre) by (done || apply startsWith_append).
    change ("--username=" +:+ name) with ("--username" +:+ String "=" name).
    rewrite split_app. simpl.
    pose proof (split_not_nil "=" name) as Hne.
    destruct (split "=" name) as [|first rest]; [done|]. by exists rest.
Qed.

(** ** Leaving *)

Section Leaving.
Context `{Platform}.

Lemma settle_dead st : running st = false → settle st = set_pending [] st.
Proof.
  intros Hdead. unfold settle.
  assert (Hgen : ∀ l a, running a = false →
            fold_left (λ st s, if running st then finish s st else st) l a = a).
  { induction l as [|s l IH]; intros a Ha; simpl; [done|]. rewrite Ha. by apply IH. }
  by apply Hgen.
Qed.

Lemma run_dead lines st :
  running st = false →
  out (run lines st) = out st ∧ fs (run lines st) = fs st
  ∧ currentDir (run lines st) = currentDir st ∧ status (run lines st) = status st.
Proof.
  revert st. induction lines as [|l lines IH]; intros st Hdead; [done|].
  unfold run in *. simpl.
  rewrite onLine_not_running, settle_dead by done.
  destruct (IH (set_pending [] st)) as (-> & -> & -> & ->); done.
Qed.

(** [.exit], whatever follows it on the line, prints the farewell and
    ends the process with no prompt, exactly as an interrupt does; no
    line read afterwards prints anything or touches the filesystem. *)
Theorem exit_is_final bg input args st lines :
  running st = true → tokenize input = (".exit", args) →
  onLine bg input st = set_status Exited (console_log goodbye st)
  ∧ onSIGINT st = onLine bg input st
  ∧ out (run lines (onLine bg input st)) = out st ++ [Log goodbye]
  ∧ fs (run lines (onLine bg input st)) = fs st
  ∧ status (run lines (onLine bg input st)) = Exited.
Proof.
  intros Hrun Htok.
  assert (Hexit : onLine bg input st = set_status Exited (console_log goodbye st)).
  { by rewrite (onLine_eq _ _ _ _ _ Hrun Htok). }
  split; [done|]. split.
  { rewrite Hexit. unfold onSIGINT. by rewrite Hrun. }
  rewrite Hexit.
  by destruct (run_dead lines (set_status Exited (console_log goodbye st)))
    as (-> & -> & _ & ->).
Qed.
End Leaving.

(** ** Navigation *)

Lemma free_not_absolute d :
  free_of "/" d = true → isAbsolute d = false.
Proof.
  destruct d as [|c d]; [done|]. simpl. intros [Hc _]%andb_prop.
  by apply negb_true_iff in Hc.
Qed.

Lemma resolve_child cwd segs d :
  Forall (λ s, is_segment s = true) segs → is_segment d = true →
  resolve_path cwd (absolute segs) d = absolute (segs ++ [d]).
Proof.
  intros Hsegs Hd. rewrite resolve_path_absolute by done.
  rewrite free_not_absolute, split_free by by apply is_segment_free.
  unfold normalize. rewrite fold_segments by (apply Forall_app; by repeat constructor).
  by rewrite app_nil_r, rev_involutive.
Qed.

Lemma resolve_empty cwd segs :
  Forall (λ s, is_segment s = true) segs →
  resolve_path cwd (absolute segs) EmptyString = absolute segs.
Proof.
  intros Hsegs. rewrite resolve_path_absolute by done. cbn [isAbsolute split].
  unfold normalize. rewrite fold_left_app, (fold_segments _ segs) by done.
  cbn [fold_left]. change (normalizeSegment false ?stack EmptyString) with stack.
  by rewrite app_nil_r, rev_involutive.
Qed.

Section Navigation.
Context `{Platform}.

Lemma set_currentDir_same st : set_currentDir (currentDir st) st = st.
Proof. by destruct st. Qed.

Lemma cd_line bg input dir rest st :
  running st = true → pending st = [] →
  tokenize input = ("cd", dir :: rest) →
  onLine bg input st =
  emit Prompt
    (match fs_lstat (fs st) (resolved st dir) with
     | Some KDir =>
         console_log ("You are currently in " +:+ resolved st dir)
           (set_currentDir (resolved st dir) st)
     | _ => console_log "Invalid input" st
     end).
Proof.
  intros Hrun Hq Htok.
  rewrite (onLine_eq _ _ _ _ _ Hrun Htok).
  change (dispatch bg "cd" (dir :: rest) st) with (changeDirectory bg (Some dir) st).
  unfold changeDirectory.
  change (resolve st (Some dir)) with (Some (resolved st dir)). cbv iota.
  rewrite await_quiescent by done.
  destruct (fs_lstat (fs st) (resolved st dir)) as [[]|];
    change (running (console_log ?l (set_currentDir ?d st))) with (running st);
    change (running (console_log ?l st)) with (running st); by rewrite Hrun.
Qed.

Lemma up_line bg input args st segs :
  running st = true → tokenize input = ("up", args) →
  Forall (λ s, is_segment s = true) segs → currentDir st = absolute segs →
  onLine bg input st =
  emit Prompt
    (match segs with
     | [] => console_log "You are at the root directory." st
     | _ :: _ =>
         console_log ("You are currently in " +:+ absolute (removelast segs))
           (set_currentDir (absolute (removelast segs)) st)
     end).
Proof.
  intros Hrun Htok Hsegs Hcwd.
  rewrite (onLine_eq _ _ _ _ _ Hrun Htok).
  change (dispatch bg "up" args st) with (navigateUp st).
  unfold navigateUp, resolve, path_resolve, path_root.
  rewrite Hcwd, isAbsolute_absolute, absolute_root_iff by done.
  destruct segs as [|p ps _] using rev_ind.
  - cbn [is_nil negb]. change (running (console_log _ st)) with (running st).
    by rewrite Hrun.
  - apply Forall_app in Hsegs as [Hps Hp]. inversion Hp; subst.
    assert (Hnil : is_nil (ps ++ [p]) = false) by by destruct ps.
    rewrite Hnil. cbn [negb fmap option_fmap option_map].
    rewrite resolve_path_absolute by (apply Forall_app; split; done).
    change (isAbsolute "..") with false. cbv iota.
    rewrite normalize_parent, removelast_last by done.
    change (running (console_log _ (set_currentDir (absolute ps) st))) with (running st).
    rewrite Hrun. by destruct ps.
Qed.

(** [cd dir] makes the resolved path the current directory and prints
    it exactly when [lstat] finds a directory there; a regular file, a
    link or nothing at all there prints [Invalid input] and changes
    nothing. *)
Theorem cd_adopts_directories_only bg input dir rest st :
  running st = true → pending st = [] →
  tokenize input = ("cd", dir :: rest) →
  (fs_lstat (fs st) (resolved st dir) = Some KDir →
     onLine bg input st =
     emit Prompt (console_log ("You are currently in " +:+ resolved st dir)
                    (set_currentDir (resolved st dir) st)))
  ∧ (fs_lstat (fs st) (resolved st dir) ≠ Some KDir →
     onLine bg input st = emit Prompt (console_log "Invalid input" st)).
Proof.
  intros Hrun Hq Htok. rewrite (cd_line _ _ _ _ _ Hrun Hq Htok).
  split; [by intros ->|].
  by destruct (fs_lstat (fs st) (resolved st dir)) as [[]|].
Qed.

(** [cd d], for a plain name [d] of a subdirectory, and then [up] lead
    back to where the session was: the two lines print the
    subdirectory and then the starting directory. *)
Theorem cd_then_up_returns bg1 bg2 input1 input2 d rest args st segs :
  running st = true → pending st = [] →
  Forall (λ s, is_segment s = true) segs → currentDir st = absolute segs →
  is_segment d = true →
  tokenize input1 = ("cd", d :: rest) → tokenize input2 = ("up", args) →
  fs_lstat (fs st) (absolute (segs ++ [d])) = Some KDir →
  onLine bg2 input2 (onLine bg1 input1 st) =
  emit Prompt (console_log ("You are currently in " +:+ currentDir st)
    (emit Prompt (console_log ("You are currently in " +:+ absolute (segs ++ [d])) st))).
Proof.
  intros Hrun Hq Hsegs Hcwd Hd Htok1 Htok2 Hdir.
  assert (Hchild : resolved st d = absolute (segs ++ [d])).
  { unfold resolved. rewrite Hcwd. by apply resolve_child. }
  rewrite (cd_line _ _ _ _ _ Hrun Hq Htok1), Hchild, Hdir.
  rewrite (up_line _ _ args _ (segs ++ [d])); try done.
  - rewrite removelast_last, <- Hcwd. destruct (segs ++ [d]) eqn:Heq.
    + by destruct segs.
    + destruct st; simpl in *. done.
  - apply Forall_app. by repeat constructor.
Qed.

(** Two spaces after the verb make its argument the empty string, and
    the empty string resolves to the current directory itself: [cd]
    stays where it is (and says so), and [rm] tries to unlink the current
    directory and fails, whatever name follows on the line. *)
Theorem empty_argument_is_the_current_directory bg input rest st segs :
  running st = true → pending st = [] →
  Forall (λ s, is_segment s = true) segs → currentDir st = absolute segs →
  fs_lstat (fs st) (currentDir st) = Some KDir →
  (tokenize input = ("cd", EmptyString :: rest) →
     onLine bg input st =
     emit Prompt (console_log ("You are currently in " +:+ currentDir st) st))
  ∧ (tokenize input = ("rm", EmptyString :: rest) →
     onLine bg input st = emit Prompt (console_log "Operation failed" st)).
Proof.
  intros Hrun Hq Hsegs Hcwd Hdir.
  assert (Hsame : resolved st EmptyString = currentDir st).
  { unfold resolved. rewrite Hcwd. by apply resolve_empty. }
  split; intros Htok.
  - rewrite (cd_line _ _ _ _ _ Hrun Hq Htok), Hsame, Hdir.
    by rewrite set_currentDir_same.
  - rewrite (onLine_eq _ _ _ _ _ Hrun Htok).
    change (dispatch bg "rm" (EmptyString :: rest) st)
      with (deleteFile bg (Some EmptyString) st).
    unfold deleteFile.
    change (resolve st (Some EmptyString)) with (Some (resolved st EmptyString)).
    cbv iota. rewrite await_quiescent, Hsame, lstat_directory_unlink by done.
    change (running (console_log _ st)) with (running st). by rewrite Hrun.
Qed.

(** From a directory [n] levels below the root, [n] times [up] reach
    the root and every further [up] stays there: after [k] times the
    current directory is the starting one without its last [k]
    segments. *)
Theorem ups_climb_to_the_root bg st segs k :
  running st = true →
  Forall (λ s, is_segment s = true) segs → currentDir st = absolute segs →
  currentDir (Nat.iter k (onLine bg "up") st) = absolute (take (length segs - k) segs)
  ∧ running (Nat.iter k (onLine bg "up") st) = true.
Proof.
  intros Hrun Hsegs Hcwd. induction k as [|k [IHcwd IHrun]].
  - simpl. by rewrite Nat.sub_0_r, firstn_all.
  - change (Nat.iter (S k) (onLine bg "up") st)
      with (onLine bg "up" (Nat.iter k (onLine bg "up") st)).
    rewrite (up_line bg "up" [] _ (take (length segs - k) segs)); try done.
    + destruct (take (length segs - k) segs) as [|p ps] eqn:Htake.
      * split; [|done]. cbn.
        assert (length segs - k = 0 ∨ segs = []) as [Hz| ->].
        { destruct segs; [by right|]. destruct (length (s :: segs) - k); [by left|done]. }
        -- by replace (length segs - S k) with 0 by lia.
        -- done.
      * split; [|done]. cbn [currentDir set_currentDir console_log emit].
        f_equal. rewrite <- Htake.
        assert (Hlt : k < length segs).
        { destruct (decide (k < length segs)); [done|].
          replace (length segs - k) with 0 in Htake by lia. done. }
        replace (length segs - k) with (S (length segs - S k)) by lia.
        rewrite (take_S_r _ _ (default p (segs !! (length segs - S k)))).
        -- by rewrite removelast_last.
        -- destruct (segs !! (length segs - S k)) eqn:Hl; [done|].
           apply lookup_ge_None in Hl. lia.
    + by apply Forall_take.
Qed.

(** In a session that starts in a normalized absolute home directory,
    whatever lines are read, the current directory is always a
    normalized absolute path: a slash, then segments that are not empty,
    not [.] nor [..], joined by slashes. *)
Theorem session_keeps_cwd_normalized lines fs0 segs :
  Forall (λ s, is_segment s = true) segs → os_homedir = absolute segs →
  cwd_ok (run lines (start fs0)).
Proof.
  intros Hsegs Hhome.
  assert (Hgen : ∀ st, cwd_ok st → cwd_ok (run lines st)).
  { induction lines as [|l lines IH]; intros st Hok; [done|].
    unfold run in *. simpl. apply IH. by apply settle_cwd_ok, onLine_cwd_ok. }
  apply Hgen. by apply (start_cwd_ok fs0 segs).
Qed.
End Navigation.

(** ** Listing and host information *)

Lemma last_removelast_inv {A} (k : list A) x loc :
  last k = Some x → removelast k = loc → k = loc ++ [x].
Proof.
  intros Hlast <-. destruct k as [|a k] using rev_ind; [done|].
  rewrite last_snoc in Hlast. injection Hlast as ->. by rewrite removelast_last.
Qed.

(** The names [readdir] reports are those bound in the directory. *)
Lemma readdir_spec fs p loc files :
  namei true fs p = Some loc → fs_readdir fs p = Some files →
  ∀ name k, (name, k) ∈ files ↔ ∃ e, names fs !! (loc ++ [name]) = Some e ∧ k = kind_of e.
Proof.
  intros Hloc. unfold fs_readdir. rewrite Hloc. cbn [mbind option_bind].
  destruct (entry_at fs loc) as [[i|w|t]|]; try done. intros [= <-] name k.
  rewrite list_elem_of_omap. split.
  - intros ([key e] & Hin & Hsome). apply elem_of_map_to_list in Hin. cbn in Hsome.
    destruct (last key) as [x|] eqn:Hlast; [|done].
    destruct (bool_decide (removelast key = loc)) eqn:Hpre; [|done].
    apply bool_decide_eq_true in Hpre. injection Hsome as <- <-.
    exists e. by rewrite <- (last_removelast_inv key x loc).
  - intros (e & He & ->). exists (loc ++ [name], e). split.
    + by apply elem_of_map_to_list.
    + cbn. rewrite last_snoc, removelast_last. by rewrite bool_decide_eq_true_2.
Qed.

Lemma fold_console_log lines st :
  fold_left (λ st line, console_log line st) lines st
  = State (currentDir st) (fs st) (out st ++ (Log <$> lines)) (pending st) (status st).
Proof.
  revert st. induction lines as [|l lines IH]; intros st; simpl.
  - rewrite app_nil_r. by destruct st.
  - rewrite IH. simpl. by rewrite <- app_assoc.
Qed.

Section Reports.
Context `{Platform}.

(** [ls] in a current directory that can be read prints one table and
    the prompt; the rows are numbered from 0 in their order, and they are
    the entries of the directory: a name is in the table, as a
    [directory], exactly when it is bound to a directory there, and as a
    [file] exactly when it is bound to anything else, a symbolic link to
    a directory too. *)
Theorem ls_lists_the_entries bg input args st loc :
  running st = true → pending st = [] →
  tokenize input = ("ls", args) →
  namei true (fs st) (currentDir st) = Some loc →
  fs_stat (fs st) (currentDir st) = Some KDir →
  ∃ rows,
    onLine bg input st = emit Prompt (emit (Table rows) st)
    ∧ (∀ i r, rows !! i = Some r → index r = i)
    ∧ (∀ name type,
         (∃ r, r ∈ rows ∧ Name r = name ∧ Type_ r = type)
         ↔ (∃ e, names (fs st) !! (loc ++ [name]) = Some e
                 ∧ type = match e with EDir _ => "directory" | _ => "file" end)).
Proof.
  intros Hrun Hq Htok Hloc Hdir.
  assert (∃ files, fs_readdir (fs st) (currentDir st) = Some files) as [files Hfiles].
  { unfold fs_stat, fs_readdir in *. rewrite Hloc in *. cbn in *.
    destruct (entry_at (fs st) loc) as [[i|w|t]|]; try done. eauto. }
  pose proof (readdir_spec _ _ _ _ Hloc Hfiles) as Hspec.
  eexists. split; [|split].
  - rewrite (onLine_eq _ _ _ _ _ Hrun Htok).
    change (dispatch bg "ls" args st) with (listFiles bg st).
    unfold listFiles. rewrite await_quiescent, Hfiles by done.
    change (running (emit _ st)) with (running st). by rewrite Hrun.
  - intros i r Hr. apply list_lookup_imap_Some in Hr as (file & _ & ->). done.
  - intros name type. split.
    + intros (r & Hr & <- & <-).
      apply list_elem_of_lookup in Hr as (i & Hr).
      apply list_lookup_imap_Some in Hr as ([n k] & Hfile & ->). cbn.
      assert (Hin : (n, k) ∈ files) by (apply list_elem_of_lookup; eauto).
      apply Hspec in Hin as (e & He & ->). exists e. split; [done|]. by destruct e.
    + intros (e & He & ->).
      assert (Hin : (name, kind_of e) ∈ files) by (apply Hspec; eauto).
      apply list_elem_of_lookup in Hin as (i & Hi).
      eexists. split; [|split].
      * apply list_elem_of_lookup. exists i. apply list_lookup_imap_Some. eauto.
      * done.
      * by destruct e.
Qed.

(** [os] only prints: the current directory, the filesystem and the
    pending streams are as before, and at least one line is printed
    before the prompt.  With [--cpus] that is the total and then one line
    for each processor; without a flag it is [Invalid input]. *)
Theorem os_only_prints bg input args st :
  running st = true → tokenize input = ("os", args) →
  ∃ lines,
    lines ≠ []
    ∧ onLine bg input st
      = emit Prompt (State (currentDir st) (fs st) (out st ++ (Log <$> lines))
                       (pending st) (status st))
    ∧ (args !! 0 = Some "--cpus" →
         head lines = Some ("Total CPUs: " +:+ decimal (length os_cpus))
         ∧ length lines = S (length os_cpus))
    ∧ (args !! 0 = None → lines = ["Invalid input"]).
Proof.
  intros Hrun Htok. rewrite (onLine_eq _ _ _ _ _ Hrun Htok).
  change (dispatch bg "os" args st) with (handleOSCommand (args !! 0) st).
  unfold handleOSCommand.
  assert (Hone : ∀ line,
    ∃ lines, lines ≠ []
      ∧ (if running (console_log line st) then emit Prompt (console_log line st)
         else console_log line st)
        = emit Prompt (State (currentDir st) (fs st) (out st ++ (Log <$> lines))
                         (pending st) (status st))
      ∧ lines = [line]).
  { intros line. exists [line].
    change (running (console_log line st)) with (running st). by rewrite Hrun. }
  destruct (args !! 0) as [flag|].
  - destruct (String.eqb flag "--EOL") eqn:Heol.
    { destruct (Hone (JSON_stringify os_EOL)) as (lines & Hne & Heq & ->).
      exists [JSON_stringify os_EOL]. apply String.eqb_eq in Heol as ->.
      repeat split; done. }
    destruct (String.eqb flag "--cpus") eqn:Hcpus.
    { apply String.eqb_eq in Hcpus as ->. rewrite fold_console_log.
      eexists (_ :: _). split; [done|]. split.
      - cbn [running status]. unfold running in Hrun. cbn in *.
        destruct (status st); try done. cbn. by rewrite <- app_assoc.
      - split; [|done]. intros _. split; [done|].
        cbn. by rewrite length_imap. }
    assert (Hflag : Some flag ≠ Some "--cpus").
    { intros [= ->]. done. }
    destruct (String.eqb flag "--homedir");
      [destruct (Hone os_homedir) as (lines & Hne & Heq & ->);
       exists [os_homedir]; repeat split; done|].
    destruct (String.eqb flag "--username");
      [destruct (Hone os_username) as (lines & Hne & Heq & ->);
       exists [os_username]; repeat split; done|].
    destruct (String.eqb flag "--architecture");
      [destruct (Hone os_arch) as (lines & Hne & Heq & ->);
       exists [os_arch]; repeat split; done|].
    destruct (Hone "Invalid input") as (lines & Hne & Heq & ->).
    exists ["Invalid input"]. repeat split; done.
  - destruct (Hone "Invalid input") as (lines & Hne & Heq & ->).
    exists ["Invalid input"]. repeat split; done.
Qed.
End Reports.

(** ** Reading and copying *)

Lemma write_data_nil j fs : write_data j [] fs = fs.
Proof.
  unfold write_data, set_inodes. destruct fs as [ns tbl w]. cbn. f_equal.
  apply alter_id. intros [data r wr] _. cbn. by rewrite app_nil_r.
Qed.

Lemma write_data_app j a b fs :
  write_data j b (write_data j a fs) = write_data j (a ++ b) fs.
Proof.
  unfold write_data, set_inodes. cbn. f_equal.
  rewrite alter_alter_eq. apply alter_ext. intros [data r wr] _. cbn.
  by rewrite app_assoc.
Qed.

Lemma stdout_of_app es1 es2 : stdout_of (es1 ++ es2) = stdout_of es1 ++ stdout_of es2.
Proof.
  induction es1 as [|[] es1 IH]; simpl; try done. by rewrite IH, app_assoc.
Qed.

Lemma stdout_of_chunks chunks : stdout_of (Stdout <$> chunks) = concat chunks.
Proof.
  induction chunks as [|c chunks IH]; [done|].
  rewrite fmap_cons. cbn [stdout_of]. by rewrite IH.
Qed.

Lemma chunks_go_bounded fuel size (data : bytes) :
  0 < size → Forall (λ c : bytes, 0 < length c ≤ size) (chunks_go fuel size data).
Proof.
  intros Hsize. revert data. induction fuel as [|fuel IH]; intros data.
  - by destruct data.
  - destruct data as [|b data]; [done|]. cbn [chunks_go]. constructor; [|apply IH].
    rewrite length_take. simpl. lia.
Qed.

Lemma open_read_of_file_ino fs p i f :
  file_ino fs p = Some i → inodes fs !! i = Some f → f_readable f = true →
  open_read fs p = Some (RdFile i).
Proof.
  unfold file_ino, open_read. destruct (namei true fs p) as [loc|]; cbn; [|done].
  destruct (entry_at fs loc) as [[j|w|t]|]; cbn; try done.
  intros [= ->] Hf Hr. rewrite Hf. cbn. by rewrite Hr.
Qed.

Lemma stat_none_open_read fs p : fs_stat fs p = None → open_read fs p = None.
Proof.
  unfold fs_stat, open_read. destruct (namei true fs p) as [loc|]; cbn; [|done].
  by destruct (entry_at fs loc).
Qed.

(** Opening for writing succeeds on a writable file and where a file can
    be created. *)
Lemma open_write_succeeds fs p :
  (∃ f, file_at fs p = Some f ∧ f_writable f = true) ∨ creatable fs p →
  ∃ fs1 j, open_write fs p = Some (fs1, j).
Proof.
  unfold open_write, file_at, file_ino, creatable.
  intros [(f & Hf & Hw)|(loc & Hloc & Hent & Hdir)].
  - destruct (namei true fs p) as [loc|]; cbn in *; [|done].
    destruct (entry_at fs loc) as [[i|w|t]|]; cbn in *; try done.
    rewrite Hf. cbn. rewrite Hw. eauto.
  - rewrite Hloc. cbn. rewrite Hent, Hdir. eauto.
Qed.

Lemma file_at_after_open_write fs p fs1 j data :
  open_write fs p = Some (fs1, j) →
  f_data <$> file_at (write_data j data fs1) p = Some data.
Proof.
  intros (Hino & (f & Hf & Hdata) & _)%open_write_spec.
  unfold file_at. rewrite file_ino_write_data, Hino. cbn.
  rewrite inodes_write_data, decide_True, Hf by done. cbn. by rewrite Hdata.
Qed.

(** Opening a file for writing leaves every other path that named a
    file naming the same file. *)
Lemma open_write_keeps_files fs p fs1 j q i :
  open_write fs p = Some (fs1, j) → file_ino fs q = Some i → file_ino fs1 q = Some i.
Proof.
  intros Hopen Hq. unfold open_write in Hopen.
  destruct (namei true fs p) as [loc|] eqn:Hloc; cbn in Hopen; [|done].
  destruct (entry_at fs loc) as [[k|w|t]|] eqn:Hent; cbn in Hopen; try done.
  - destruct (inodes fs !! k) as [fk|]; cbn in Hopen; [|done].
    destruct (f_writable fk); [|done]. injection Hopen as <- _.
    by rewrite (file_ino_names _ fs).
  - destruct (dir_writable fs (removelast loc)); [|done]. injection Hopen as <- _.
    assert (Hkey : names fs !! loc = None) by by destruct loc.
    unfold file_ino in *.
    destruct (namei true fs q) as [loc'|] eqn:Hloc'; cbn in Hq; [|done].
    rewrite (namei_create _ _ _ loc') by done. cbn.
    destruct (entry_at fs loc') as [[k|w|t]|] eqn:Hent'; try done.
    destruct loc' as [|c loc']; [done|]. cbn in *.
    rewrite lookup_insert_ne by congruence. by rewrite Hent'.
Qed.

Section Copying.
Context `{Platform}.

Lemma fold_stdout chunks st :
  fold_left (λ st c, emit (Stdout c) st) chunks st
  = State (currentDir st) (fs st) (out st ++ (Stdout <$> chunks)) (pending st) (status st).
Proof.
  revert st. induction chunks as [|c chunks IH]; intros st; simpl.
  - rewrite app_nil_r. by destruct st.
  - rewrite IH. simpl. by rewrite <- app_assoc.
Qed.

Lemma fold_write_to j chunks st :
  fold_left (λ st c, write_to (Some j) c st) chunks st
  = set_fs (write_data j (concat chunks) (fs st)) st.
Proof.
  revert st. induction chunks as [|c chunks IH]; intros st; simpl.
  - rewrite write_data_nil. by destruct st.
  - rewrite IH. cbn. by rewrite write_data_app.
Qed.

Lemma finish_cat source st :
  running st = true →
  finish (Stream source ToStdout Constructed) st =
  match read_file (fs st) source with
  | Some content =>
      State (currentDir st) (fs st) (out st ++ (Stdout <$> read_chunks content))
            (pending st) (status st)
  | None => console_log "Operation failed" st
  end.
Proof.
  unfold running. destruct (status st) eqn:Hstatus; [intros _|done..].
  unfold finish, stream_step, stream_open, read_file, running. cbn.
  destruct (open_read (fs st) source) as [[i|]|]; cbn; rewrite ?Hstatus; cbn.
  - rewrite fold_stdout. cbn. by rewrite ?Hstatus.
  - done.
  - done.
Qed.

Lemma finish_copy source destination st :
  running st = true →
  finish (Stream source (ToFile destination) Constructed) st =
  match open_read (fs st) source, open_write (fs st) destination with
  | Some (RdFile i), Some (fs1, j) => set_fs (write_data j (read_data fs1 i) fs1) st
  | Some RdDir, Some (fs1, j) => console_log "Operation failed" (set_fs fs1 st)
  | None, Some (fs1, j) => set_fs fs1 (console_log "Operation failed" st)
  | Some _, None => console_log "Operation failed" st
  | None, None => console_log "Operation failed" (console_log "Operation failed" st)
  end.
Proof.
  unfold running. destruct (status st) eqn:Hstatus; [intros _|done..].
  unfold finish, stream_step, stream_open, running. cbn.
  destruct (open_read (fs st) source) as [[i|]|]; cbn;
    destruct (open_write (fs st) destination) as [[fs1 j]|]; cbn;
    rewrite ?Hstatus; cbn; try done.
  change (λ (st0 : state) (c : bytes), set_fs (write_data j c (fs st0)) st0)
    with (λ (st0 : state) (c : bytes), write_to (Some j) c st0).
  by rewrite fold_write_to, concat_read_chunks.
Qed.

Lemma finish_through_brotli source c destination st :
  running st = true →
  finish (Stream source (ThroughBrotli c destination) Constructed) st =
  match open_read (fs st) source, open_write (fs st) destination with
  | Some (RdFile i), Some (fs1, j) =>
      match through_brotli c (read_data fs1 i) with
      | Some data => set_fs (write_data j data fs1) st
      | None => set_status Crashed (set_fs fs1 st)
      end
  | Some RdDir, Some (fs1, j) => set_status Crashed (set_fs fs1 st)
  | None, Some (fs1, j) => set_fs fs1 (set_status Crashed st)
  | _, None => set_status Crashed st
  end.
Proof.
  unfold running. destruct (status st) eqn:Hstatus; [intros _|done..].
  unfold finish, stream_step, stream_open, running. cbn.
  destruct (open_read (fs st) source) as [[i|]|]; cbn;
    destruct (open_write (fs st) destination) as [[fs1 j]|]; cbn;
    rewrite ?Hstatus; cbn; try done.
  rewrite concat_read_chunks. destruct c; cbn; [done|].
  by destruct (brotliDecompress (read_data fs1 i)).
Qed.

Lemma pipe_onLine bg input verb args p source st :
  running st = true →
  tokenize input = (verb, args) →
  dispatch bg verb args st = Fulfilled (pipe source p st) →
  onLine bg input st = emit Prompt (pipe source p st).
Proof.
  intros Hrun Htok Hdispatch.
  rewrite (onLine_eq _ _ _ _ _ Hrun Htok), Hdispatch.
  change (running (pipe _ _ st)) with (running st). by rewrite Hrun.
Qed.

Lemma pipe_line bg input verb args p source st :
  running st = true → pending st = [] →
  tokenize input = (verb, args) →
  dispatch bg verb args st = Fulfilled (pipe source p st) →
  settle (onLine bg input st) = finish (Stream source p Constructed) (emit Prompt st).
Proof.
  intros Hrun Hq Htok Hdispatch.
  rewrite (onLine_eq _ _ _ _ _ Hrun Htok), Hdispatch.
  change (running (pipe _ _ st)) with (running st). rewrite Hrun.
  by rewrite settle_pipe.
Qed.

(** [cat p] shows the prompt and then sends the file, when it is ASCII
    text, to standard output in chunks of at most 64 KiB, none of them
    empty, that add up to the content of the file; nothing else is
    printed and the filesystem is not touched.  A path that cannot be
    read prints [Operation failed] after the prompt. *)
Theorem cat_streams_the_file bg input p rest st :
  running st = true → pending st = [] →
  tokenize input = ("cat", p :: rest) →
  match read_file (fs st) (resolved st p) with
  | Some content =>
      ascii_text content = true →
      ∃ chunks,
        settle (onLine bg input st)
        = State (currentDir st) (fs st) (out st ++ Prompt :: (Stdout <$> chunks)) [] Running
        ∧ concat chunks = content
        ∧ Forall (λ c : bytes, 0 < length c ≤ highWaterMark) chunks
        ∧ stdout_of (out (settle (onLine bg input st))) = stdout_of (out st) ++ content
  | None =>
      settle (onLine bg input st) = console_log "Operation failed" (emit Prompt st)
  end.
Proof.
  intros Hrun Hq Htok.
  rewrite (pipe_line bg input "cat" (p :: rest) ToStdout (resolved st p)) by done.
  rewrite finish_cat by done. cbn [fs emit].
  destruct (read_file (fs st) (resolved st p)) as [content|]; [intros _|done].
  exists (read_chunks content).
  assert (Hstatus : status st = Running).
  { unfold running in Hrun. by destruct (status st). }
  cbn [currentDir fs out pending status emit].
  rewrite Hq, Hstatus, <- app_assoc. split; [done|].
  split; [apply concat_read_chunks|].
  split; [apply chunks_go_bounded, highWaterMark_pos|].
  rewrite !stdout_of_app. cbn [stdout_of app].
  by rewrite stdout_of_chunks, concat_read_chunks.
Qed.

(** [add name] where nothing is and then [cat name]: the new file is
    read back, and it is empty, so nothing reaches standard output and
    the second line prints the prompt only. *)
Theorem add_then_cat_prints_nothing bg1 bg2 input1 input2 name rest1 rest2 st :
  running st = true → pending st = [] →
  tokenize input1 = ("add", name :: rest1) →
  tokenize input2 = ("cat", name :: rest2) →
  creatable (fs st) (resolved st name) →
  out (settle (onLine bg2 input2 (onLine bg1 input1 st)))
  = out st ++ [Log "File created"; Prompt; Prompt].
Proof.
  intros Hrun Hq Htok1 Htok2 Hnew.
  assert (Hnone : file_ino (fs st) (resolved st name) = None).
  { destruct Hnew as (loc & Hloc & Hent & _). unfold file_ino. rewrite Hloc. cbn.
    by rewrite Hent. }
  destruct (open_write_succeeds (fs st) (resolved st name) (or_intror Hnew))
    as (fs1 & j & Hopen).
  pose proof (open_write_spec _ _ _ _ Hopen) as (Hino & (f & Hf & Hdata) & _ & Hcase).
  destruct Hcase as [[Hold _]|(_ & _ & f' & Hf' & Hreadable)]; [congruence|].
  rewrite Hf in Hf'. injection Hf' as <-.
  set (fs2 := write_data j [] fs1).
  assert (Hadd : onLine bg1 input1 st
                 = emit Prompt (console_log "File created" (set_fs fs2 st))).
  { rewrite (onLine_eq _ _ _ _ _ Hrun Htok1).
    change (dispatch bg1 "add" (name :: rest1) st) with (createFile bg1 (Some name) st).
    unfold createFile.
    change (resolve st (Some name)) with (Some (resolved st name)). cbv iota.
    rewrite await_quiescent by done. unfold fs_writeFile. rewrite Hopen. cbn.
    fold fs2. change (running (console_log _ (set_fs fs2 st))) with (running st).
    by rewrite Hrun. }
  assert (Hread : read_file fs2 (resolved st name) = Some []).
  { unfold read_file.
    rewrite (open_read_of_file_ino fs2 _ j (File (f_data f ++ []) (f_readable f) (f_writable f))).
    - cbn. unfold read_data, fs2.
      rewrite inodes_write_data, decide_True, Hf by done. cbn. by rewrite Hdata.
    - unfold fs2. by rewrite file_ino_write_data.
    - unfold fs2. by rewrite inodes_write_data, decide_True, Hf.
    - done. }
  rewrite Hadd.
  rewrite (pipe_line bg2 input2 "cat" (name :: rest2) ToStdout (resolved st name));
    try done.
  rewrite finish_cat by done. cbn [fs emit console_log set_fs].
  rewrite Hread. cbn. by rewrite <- !app_assoc.
Qed.

(** [cp source destination], when the source can be read and the
    destination is another file that can be written or created, prints
    nothing but the prompt; once the stream has ended the destination
    holds the content of the source, and the source still does. *)
Theorem cp_copies_the_content bg input source destination rest st content :
  running st = true → pending st = [] →
  tokenize input = ("cp", source :: destination :: rest) →
  read_file (fs st) (resolved st source) = Some content →
  file_ino (fs st) (resolved st destination) ≠ file_ino (fs st) (resolved st source) →
  (∃ f, file_at (fs st) (resolved st destination) = Some f ∧ f_writable f = true)
  ∨ creatable (fs st) (resolved st destination) →
  out (settle (onLine bg input st)) = out st ++ [Prompt]
  ∧ f_data <$> file_at (fs (settle (onLine bg input st))) (resolved st destination)
    = Some content
  ∧ read_file (fs (settle (onLine bg input st))) (resolved st source) = Some content.
Proof.
  intros Hrun Hq Htok Hread Hother Hdest.
  rewrite (pipe_line bg input "cp" (source :: destination :: rest)
             (ToFile (resolved st destination)) (resolved st source)) by done.
  rewrite finish_copy by done. cbn [fs emit].
  apply read_file_spec in Hread as (i & Hopen_src & Hcontent).
  destruct (open_write_succeeds _ _ Hdest) as (fs1 & j & Hopen_dst).
  rewrite Hopen_src, Hopen_dst.
  pose proof (open_read_file_ino _ _ _ Hopen_src) as (Hino_src & f & Hf & Hreadable).
  pose proof (open_write_spec _ _ _ _ Hopen_dst)
    as (Hino_dst & (fd & Hfd & Hfd_data) & Hothers & Hcase).
  assert (Hij : i ≠ j).
  { intros ->. destruct Hcase as [[Hsame _]|(_ & Hnew & _)]; congruence. }
  assert (Hsrc : read_data fs1 i = content).
  { unfold read_data in *. by rewrite Hothers. }
  rewrite Hsrc. cbn [out fs set_fs emit]. split; [done|]. split.
  - by apply (file_at_after_open_write (fs st)).
  - unfold read_file.
    rewrite (open_read_of_file_ino _ _ i f).
    + cbn. rewrite read_data_write_data, decide_False by eauto. by rewrite Hsrc.
    + rewrite file_ino_write_data.
      by apply (open_write_keeps_files (fs st) (resolved st destination) fs1 j).
    + rewrite inodes_write_data, decide_False by eauto. by rewrite Hothers.
    + done.
Qed.

(** [cp] of a file onto itself, by the same path or through a link,
    prints nothing and leaves the file empty: the write stream empties
    its target when it opens, before anything is read. *)
Theorem cp_onto_itself_empties_the_file bg input source destination rest st f :
  running st = true → pending st = [] →
  tokenize input = ("cp", source :: destination :: rest) →
  file_at (fs st) (resolved st source) = Some f →
  f_readable f = true → f_writable f = true →
  file_ino (fs st) (resolved st destination) = file_ino (fs st) (resolved st source) →
  out (settle (onLine bg input st)) = out st ++ [Prompt]
  ∧ f_data <$> file_at (fs (settle (onLine bg input st))) (resolved st source) = Some [].
Proof.
  intros Hrun Hq Htok Hfile Hr Hw Hsame.
  rewrite (pipe_line bg input "cp" (source :: destination :: rest)
             (ToFile (resolved st destination)) (resolved st source)) by done.
  rewrite finish_copy by done. cbn [fs emit].
  unfold file_at in Hfile.
  destruct (file_ino (fs st) (resolved st source)) as [i|] eqn:Hino; [|done].
  cbn in Hfile.
  rewrite (open_read_of_file_ino _ _ i f) by done.
  assert (Hdest : ∃ g, file_at (fs st) (resolved st destination) = Some g
                       ∧ f_writable g = true).
  { exists f. unfold file_at. by rewrite Hsame. }
  destruct (open_write_succeeds _ _ (or_introl Hdest)) as (fs1 & j & Hopen).
  rewrite Hopen.
  pose proof (open_write_spec _ _ _ _ Hopen) as (Hino_dst & (fd & Hfd & Hdata) & _ & Hcase).
  assert (j = i) as ->.
  { destruct Hcase as [[Hold _]|(Hnone & _)]; congruence. }
  assert (Hempty : read_data fs1 i = []).
  { unfold read_data. by rewrite Hfd, <- Hdata. }
  rewrite Hempty, write_data_nil. cbn [out fs set_fs emit]. split; [done|].
  unfold file_at.
  rewrite (open_write_keeps_files (fs st) (resolved st destination) fs1 i _ i) by done.
  cbn. by rewrite Hfd, <- Hdata.
Qed.

(** [cp] from a source that does not exist still opens the
    destination: it prints [Operation failed] once, after the prompt,
    and the destination is left as an empty file, created if it was
    missing and emptied if it was there. *)
Theorem cp_of_nothing_empties_the_destination bg input source destination rest st :
  running st = true → pending st = [] →
  tokenize input = ("cp", source :: destination :: rest) →
  fs_stat (fs st) (resolved st source) = None →
  (∃ f, file_at (fs st) (resolved st destination) = Some f ∧ f_writable f = true)
  ∨ creatable (fs st) (resolved st destination) →
  out (settle (onLine bg input st)) = out st ++ [Prompt; Log "Operation failed"]
  ∧ f_data <$> file_at (fs (settle (onLine bg input st))) (resolved st destination)
    = Some [].
Proof.
  intros Hrun Hq Htok Hmissing Hdest.
  rewrite (pipe_line bg input "cp" (source :: destination :: rest)
             (ToFile (resolved st destination)) (resolved st source)) by done.
  rewrite finish_copy by done. cbn [fs emit].
  rewrite stat_none_open_read by done.
  destruct (open_write_succeeds _ _ Hdest) as (fs1 & j & Hopen). rewrite Hopen.
  cbn [out fs set_fs emit console_log]. split; [by rewrite <- app_assoc|].
  rewrite <- (write_data_nil j fs1). by apply (file_at_after_open_write (fs st)).
Qed.

(** [compress] and [decompress] from a source that does not exist end
    the process: their streams have no listener for the error.  The
    prompt had been shown and no message is printed, whatever the
    destination is. *)
Theorem brotli_of_nothing_is_fatal bg input verb source destination rest st :
  running st = true → pending st = [] →
  verb = "compress" ∨ verb = "decompress" →
  tokenize input = (verb, source :: destination :: rest) →
  fs_stat (fs st) (resolved st source) = None →
  status (settle (onLine bg input st)) = Crashed
  ∧ out (settle (onLine bg input st)) = out st ++ [Prompt].
Proof.
  intros Hrun Hq Hverb Htok Hmissing.
  assert (∃ c, settle (onLine bg input st)
               = finish (Stream (resolved st source)
                           (ThroughBrotli c (resolved st destination)) Constructed)
                        (emit Prompt st)) as [c ->].
  { destruct Hverb as [-> | ->].
    - exists Compress.
      by apply (pipe_line bg input "compress" (source :: destination :: rest)).
    - exists Decompress.
      by apply (pipe_line bg input "decompress" (source :: destination :: rest)). }
  rewrite finish_through_brotli by done. cbn [fs emit].
  rewrite stat_none_open_read by done.
  by destruct (open_write (fs st) (resolved st destination)) as [[fs1 j]|].
Qed.
End Copying.

(** ** Deleting *)

(** Once a name is removed, a path that led to it leads to the same
    place, where there is nothing now, or nowhere. *)
Lemma walk_delete fuel ns follow cur comps loc :
  walk fuel ns follow cur comps = Some loc →
  walk fuel (delete loc ns) follow cur comps = Some loc
  ∨ walk fuel (delete loc ns) follow cur comps = None.
Proof.
  revert cur comps.
  induction fuel as [|fuel IHfuel]; intros cur comps;
    revert cur; induction comps as [|c rest IHrest]; intros cur;
    rewrite ?walk_nil, ?walk_cons; try (by left).
  - destruct (String.eqb c ".."); [apply IHrest|].
    destruct (decide (cur ++ [c] = loc)) as [Heq|Hne].
    + rewrite Heq, lookup_delete_eq. intros _. destruct rest; [left|right]; done.
    + rewrite lookup_delete_ne by done.
      destruct (ns !! (cur ++ [c])) as [[j|w|target]|];
        [by left|apply IHrest|by left|by left].
  - destruct (String.eqb c ".."); [apply IHrest|].
    destruct (decide (cur ++ [c] = loc)) as [Heq|Hne].
    + rewrite Heq, lookup_delete_eq. intros _. destruct rest; [left|right]; done.
    + rewrite lookup_delete_ne by done.
      destruct (ns !! (cur ++ [c])) as [[j|w|target]|];
        [by left|apply IHrest| |by left].
      destruct (is_nil rest && negb follow); [by left|].
      destruct (String.eqb target EmptyString); [done|]. apply IHfuel.
Qed.

(** When the last component is not followed and nothing is found
    there, following it finds the same. *)
Lemma walk_nofollow_missing fuel ns cur comps loc :
  walk fuel ns false cur comps = Some loc → ns !! loc = None →
  walk fuel ns true cur comps = Some loc.
Proof.
  intros Hwalk Hnone. revert cur comps Hwalk.
  induction fuel as [|fuel IHfuel]; intros cur comps;
    revert cur; induction comps as [|c rest IHrest]; intros cur;
    rewrite ?walk_nil, ?walk_cons; try done.
  - destruct (String.eqb c ".."); [apply IHrest|].
    destruct (ns !! (cur ++ [c])) as [[j|w|target]|] eqn:Hlook; try done.
    + apply IHrest.
    + destruct rest; cbn; [|done]. intros [= <-]. congruence.
  - destruct (String.eqb c ".."); [apply IHrest|].
    destruct (ns !! (cur ++ [c])) as [[j|w|target]|] eqn:Hlook; try done.
    + apply IHrest.
    + destruct rest; cbn; [intros [= <-]; congruence|].
      destruct (String.eqb target EmptyString); [done|]. apply IHfuel.
Qed.

Lemma walk_nofollow_none fuel ns cur comps :
  walk fuel ns false cur comps = None → walk fuel ns true cur comps = None.
Proof.
  revert cur comps.
  induction fuel as [|fuel IHfuel]; intros cur comps;
    revert cur; induction comps as [|c rest IHrest]; intros cur;
    rewrite ?walk_nil, ?walk_cons; try done.
  - destruct (String.eqb c ".."); [apply IHrest|].
    destruct (ns !! (cur ++ [c])) as [[j|w|target]|] eqn:Hlook; try done.
    + apply IHrest.
    + by destruct rest.
  - destruct (String.eqb c ".."); [apply IHrest|].
    destruct (ns !! (cur ++ [c])) as [[j|w|target]|] eqn:Hlook; try done.
    + apply IHrest.
    + destruct rest; cbn; [done|].
      destruct (String.eqb target EmptyString); [done|]. apply IHfuel.
Qed.

Lemma removelast_shorter {A} (l : list A) : l ≠ [] → removelast l ≠ l.
Proof.
  intros Hne Heq. destruct l as [|a l _] using rev_ind; [done|].
  rewrite removelast_last in Heq. apply (f_equal length) in Heq.
  rewrite length_app in Heq. simpl in Heq. lia.
Qed.

Section Deleting.
Context `{Platform}.

Lemma rm_line bg input p rest st :
  running st = true → pending st = [] →
  tokenize input = ("rm", p :: rest) →
  onLine bg input st =
  emit Prompt
    (match fs_unlink (fs st) (resolved st p) with
     | Some fs' => console_log "File deleted" (set_fs fs' st)
     | None => console_log "Operation failed" st
     end).
Proof.
  intros Hrun Hq Htok.
  rewrite (onLine_eq _ _ _ _ _ Hrun Htok).
  change (dispatch bg "rm" (p :: rest) st) with (deleteFile bg (Some p) st).
  unfold deleteFile.
  change (resolve st (Some p)) with (Some (resolved st p)). cbv iota.
  rewrite await_quiescent by done.
  destruct (fs_unlink (fs st) (resolved st p)) as [fs'|];
    change (running (console_log ?l (set_fs ?f st))) with (running st);
    change (running (console_log ?l st)) with (running st); by rewrite Hrun.
Qed.

(** [rm p], where [p] names a file or a symbolic link in a directory
    that can be written, prints [File deleted]; afterwards nothing is
    found at [p], every other name is bound as before, and no file
    content has been touched (a link is removed, not the file it leads
    to). *)
Theorem rm_removes_the_name bg input p rest st loc e :
  running st = true → pending st = [] →
  tokenize input = ("rm", p :: rest) →
  namei false (fs st) (resolved st p) = Some loc →
  entry_at (fs st) loc = Some e → kind_of e ≠ KDir →
  dir_writable (fs st) (removelast loc) = true →
  out (onLine bg input st) = out st ++ [Log "File deleted"; Prompt]
  ∧ fs_lstat (fs (onLine bg input st)) (resolved st p) = None
  ∧ (∀ loc', loc' ≠ loc →
       names (fs (onLine bg input st)) !! loc' = names (fs st) !! loc')
  ∧ inodes (fs (onLine bg input st)) = inodes (fs st).
Proof.
  intros Hrun Hq Htok Hloc Hent Hkind Hdir.
  rewrite (rm_line _ _ _ _ _ Hrun Hq Htok).
  unfold fs_unlink. rewrite Hloc. cbn [mbind option_bind]. rewrite Hent, Hdir.
  destruct e as [i|w|t]; [|done|]; cbn [out fs emit console_log set_fs];
    (split; [by rewrite <- app_assoc|]);
    (split; [|split; [intros loc' Hne; cbn; by rewrite lookup_delete_ne|done]]).
  all: unfold fs_lstat, namei in *; cbn [names set_names].
  all: destruct (walk_delete _ _ _ _ _ _ Hloc) as [-> | ->]; [|done].
  all: cbn; destruct loc; [done|]; cbn; by rewrite lookup_delete_eq.
Qed.

(** [add name] where there is nothing, not even a link, and then
    [rm name]: the two lines print [File created] and [File deleted], and
    the names of the filesystem are bound exactly as before the two
    lines; no file that existed has changed. *)
Theorem add_then_rm_restores_the_names bg1 bg2 input1 input2 name rest1 rest2 st :
  running st = true → pending st = [] →
  tokenize input1 = ("add", name :: rest1) →
  tokenize input2 = ("rm", name :: rest2) →
  creatable (fs st) (resolved st name) →
  fs_lstat (fs st) (resolved st name) = None →
  out (onLine bg2 input2 (onLine bg1 input1 st))
  = out st ++ [Log "File created"; Prompt; Log "File deleted"; Prompt]
  ∧ names (fs (onLine bg2 input2 (onLine bg1 input1 st))) = names (fs st)
  ∧ (∀ i, is_Some (inodes (fs st) !! i) →
       inodes (fs (onLine bg2 input2 (onLine bg1 input1 st))) !! i
       = inodes (fs st) !! i).
Proof.
  intros Hrun Hq Htok1 Htok2 (loc & Hloc & Hent & Hdir) Hlstat.
  assert (Hkey : names (fs st) !! loc = None) by by destruct loc.
  assert (Hne : loc ≠ []) by by destruct loc.
  assert (Hnofollow : namei false (fs st) (resolved st name) = Some loc).
  { unfold fs_lstat, namei in *.
    destruct (walk SYMLOOP_MAX (names (fs st)) false [] (components (resolved st name)))
      as [l|] eqn:Hwalk.
    - cbn in Hlstat. destruct (entry_at (fs st) l) as [e|] eqn:Hl; [done|].
      assert (names (fs st) !! l = None) by by destruct l.
      rewrite (walk_nofollow_missing _ _ _ _ l) in Hloc by done. done.
    - by rewrite walk_nofollow_none in Hloc. }
  set (i := fresh_ino (inodes (fs st))).
  set (fs1 := Filesystem (<[loc := EFile i]> (names (fs st)))
                (<[i := File [] true true]> (inodes (fs st)))
                (root_writable (fs st))).
  assert (Hwrite : fs_writeFile (fs st) (resolved st name) [] = Some fs1).
  { unfold fs_writeFile, open_write. rewrite Hloc. cbn [mbind option_bind].
    rewrite Hent, Hdir. cbn. by rewrite write_data_nil. }
  assert (Hadd : onLine bg1 input1 st
                 = emit Prompt (console_log "File created" (set_fs fs1 st))).
  { rewrite (onLine_eq _ _ _ _ _ Hrun Htok1).
    change (dispatch bg1 "add" (name :: rest1) st) with (createFile bg1 (Some name) st).
    unfold createFile.
    change (resolve st (Some name)) with (Some (resolved st name)). cbv iota.
    rewrite await_quiescent, Hwrite by done.
    change (running (console_log _ (set_fs fs1 st))) with (running st).
    by rewrite Hrun. }
  assert (Hunlink : fs_unlink fs1 (resolved st name)
                    = Some (set_names (names (fs st)) fs1)).
  { assert (Hent1 : entry_at fs1 loc = Some (EFile i)).
    { destruct loc; [done|]. cbn. by rewrite lookup_insert_eq. }
    assert (Hdir1 : dir_writable fs1 (removelast loc) = true).
    { unfold dir_writable, entry_at in *. cbn [names root_writable fs1].
      destruct (removelast loc) eqn:Hparent; [done|].
      rewrite lookup_insert_ne; [done|]. rewrite <- Hparent.
      intros Heq. by apply (removelast_shorter loc). }
    unfold fs_unlink.
    assert (Hloc1 : namei false fs1 (resolved st name) = Some loc)
      by by apply namei_create.
    rewrite Hloc1. cbn [mbind option_bind]. rewrite Hent1, Hdir1.
    unfold set_names. cbn [names inodes root_writable fs1]. f_equal. f_equal.
    rewrite delete_insert_eq. by apply delete_id. }
  rewrite Hadd. rewrite (rm_line bg2 input2 name rest2); try done.
  change (fs (emit Prompt (console_log "File created" (set_fs fs1 st)))) with fs1.
  change (resolved (emit Prompt (console_log "File created" (set_fs fs1 st))) name)
    with (resolved st name).
  rewrite Hunlink. cbn [out fs emit console_log set_fs set_names names inodes fs1].
  split; [by rewrite <- !app_assoc|]. split; [done|].
  intros k Hk. rewrite lookup_insert_ne; [done|].
  intros <-. unfold i in Hk. rewrite fresh_ino_fresh in Hk. by destruct Hk.
Qed.

(** ** Commands that only read *)

Lemma dispatch_reads_only bg verb args st :
  running st = true → pending st = [] →
  verb ∉ ["cat"; "add"; "rn"; "cp"; "mv"; "rm"; "hash"; "compress"; "decompress"] →
  fs (final (dispatch bg verb args st)) = fs st
  ∧ pending (final (dispatch bg verb args st)) = [].
Proof.
  intros Hrun Hq Hnot. unfold dispatch.
  repeat (apply not_elem_of_cons in Hnot as [Hne Hnot];
          apply String.eqb_neq in Hne; rewrite Hne; clear Hne).
  destruct (String.eqb verb ".exit"); [done|].
  destruct (String.eqb verb "up").
  { unfold navigateUp. destruct (negb _); [|done]. by destruct (resolve st _). }
  destruct (String.eqb verb "cd").
  { unfold changeDirectory. destruct (resolve st _); [|done].
    rewrite await_quiescent by done. by destruct (fs_lstat _ _) as [[]|]. }
  destruct (String.eqb verb "ls").
  { unfold listFiles. rewrite await_quiescent by done. by destruct (fs_readdir _ _). }
  destruct (String.eqb verb "os"); [|done].
  unfold handleOSCommand. destruct (args !! 0) as [o|]; [|done].
  repeat match goal with
         | |- context [if String.eqb o ?v then _ else _] => destruct (String.eqb o v)
         end; try done.
  cbn [final]. by rewrite fold_console_log.
Qed.

(** [.exit], [up], [cd], [ls], [os], [cat], [hash] and every unknown
    verb leave the filesystem as it was, also when the stream of [cat]
    or [hash] has ended: only [add], [rn], [cp], [mv], [rm], [compress]
    and [decompress] write. *)
Theorem reading_commands_keep_the_filesystem bg input st :
  running st = true → pending st = [] →
  (tokenize input).1 ∉ ["add"; "rn"; "cp"; "mv"; "rm"; "compress"; "decompress"] →
  fs (onLine bg input st) = fs st
  ∧ fs (settle (onLine bg input st)) = fs st.
Proof.
  intros Hrun Hq Hnot. destruct (tokenize input) as [verb args] eqn:Htok.
  cbn [fst] in Hnot.
  assert (Hstream : ∀ p, (p = ToStdout ∨ p = ToHash) → ∀ source st',
            running st' = true →
            fs (finish (Stream source p Constructed) st') = fs st').
  { intros p [-> | ->] source st' Hrun'.
    - rewrite finish_cat by done. by destruct (read_file _ _).
    - rewrite finish_hash by done. by destruct (read_file _ _). }
  destruct (decide (verb = "cat")) as [->|Hcat];
    [|destruct (decide (verb = "hash")) as [->|Hhash]].
  - destruct args as [|p rest].
    + rewrite (onLine_eq _ _ _ _ _ Hrun Htok).
      change (dispatch bg "cat" [] st) with (Rejected st). cbv iota.
      split; [done|]. by rewrite settle_dead.
    + split.
      * by rewrite (pipe_onLine bg input "cat" (p :: rest) ToStdout (resolved st p)).
      * rewrite (pipe_line bg input "cat" (p :: rest) ToStdout (resolved st p)) by done.
        rewrite Hstream; auto.
  - destruct args as [|p rest].
    + rewrite (onLine_eq _ _ _ _ _ Hrun Htok).
      change (dispatch bg "hash" [] st) with (Rejected st). cbv iota.
      split; [done|]. by rewrite settle_dead.
    + split.
      * by rewrite (pipe_onLine bg input "hash" (p :: rest) ToHash (resolved st p)).
      * rewrite (pipe_line bg input "hash" (p :: rest) ToHash (resolved st p)) by done.
        rewrite Hstream; auto.
  - destruct (dispatch_reads_only bg verb args st Hrun Hq) as [Hfs Hpending].
    { intros Hin.
      repeat (apply elem_of_cons in Hin as [->|Hin];
              [first [done | exfalso; apply Hnot; set_solver]|]).
      by apply elem_of_nil in Hin. }
    rewrite (onLine_eq _ _ _ _ _ Hrun Htok).
    destruct (dispatch bg verb args st) as [st'|st']; cbn [final] in *.
    + destruct (running st') eqn:Hrun'.
      * split; [done|]. unfold settle. cbn. by rewrite Hpending.
      * split; [done|]. rewrite settle_dead by done. done.
    + split; [done|]. rewrite settle_dead by done. done.
Qed.
End Deleting.

(** ** Renaming *)

(** Removing the name of a regular file does not change where a path
    that resolved leads. *)
Lemma walk_delete_file fuel ns follow cur comps loc k i :
  ns !! k = Some (EFile i) →
  walk fuel ns follow cur comps = Some loc →
  walk fuel (delete k ns) follow cur comps = Some loc.
Proof.
  intros Hk. revert cur comps.
  induction fuel as [|fuel IHfuel]; intros cur comps;
    revert cur; induction comps as [|c rest IHrest]; intros cur;
    rewrite ?walk_nil, ?walk_cons; try done.
  - destruct (String.eqb c ".."); [apply IHrest|].
    destruct (decide (cur ++ [c] = k)) as [Heq|Hne].
    + rewrite Heq, Hk, lookup_delete_eq. done.
    + rewrite lookup_delete_ne by done.
      destruct (ns !! (cur ++ [c])) as [[j|w|target]|]; try done. apply IHrest.
  - destruct (String.eqb c ".."); [apply IHrest|].
    destruct (decide (cur ++ [c] = k)) as [Heq|Hne].
    + rewrite Heq, Hk, lookup_delete_eq. done.
    + rewrite lookup_delete_ne by done.
      destruct (ns !! (cur ++ [c])) as [[j|w|target]|]; try done; [apply IHrest|].
      destruct (is_nil rest && negb follow); [done|].
      destruct (String.eqb target EmptyString); [done|]. apply IHfuel.
Qed.

Section Renaming.
Context `{Platform}.

(** [rn old new], where [old] names a regular file, nothing is at
    [new], and both directories can be written, prints [File renamed];
    afterwards nothing is found at [old], [new] names the very file
    [old] named, and no content has been touched. *)
Theorem rn_moves_a_file bg input old new rest st from to i :
  running st = true → pending st = [] →
  tokenize input = ("rn", old :: new :: rest) →
  namei false (fs st) (resolved st old) = Some from →
  entry_at (fs st) from = Some (EFile i) →
  namei false (fs st) (resolved st new) = Some to →
  entry_at (fs st) to = None →
  dir_writable (fs st) (removelast from) = true →
  dir_writable (fs st) (removelast to) = true →
  out (onLine bg input st) = out st ++ [Log "File renamed"; Prompt]
  ∧ fs_lstat (fs (onLine bg input st)) (resolved st old) = None
  ∧ namei false (fs (onLine bg input st)) (resolved st new) = Some to
  ∧ entry_at (fs (onLine bg input st)) to = Some (EFile i)
  ∧ inodes (fs (onLine bg input st)) = inodes (fs st).
Proof.
  intros Hrun Hq Htok Hfrom Hsrc Hto Hdst Hwfrom Hwto.
  assert (Hfrom_ne : from ≠ []) by (intros ->; done).
  assert (Hto_ne : to ≠ []) by (intros ->; done).
  assert (Hsrc' : names (fs st) !! from = Some (EFile i)) by by destruct from.
  assert (Hdst' : names (fs st) !! to = None) by by destruct to.
  assert (Hne : from ≠ to) by congruence.
  set (ns' := <[to := EFile i]> (delete from (names (fs st)))).
  assert (Hrename : fs_rename (fs st) (resolved st old) (resolved st new)
                    = Some (set_names ns' (fs st))).
  { unfold fs_rename. rewrite Hfrom, Hto. cbn [mbind option_bind].
    destruct from as [|a from]; [done|]. destruct to as [|b to]; [done|].
    rewrite Hsrc'. cbn [mbind option_bind].
    rewrite bool_decide_eq_false_2 by done.
    rewrite Hwfrom, Hwto. cbn [andb negb]. by rewrite Hdst'. }
  assert (Hline : onLine bg input st
                  = emit Prompt (console_log "File renamed"
                                   (set_fs (set_names ns' (fs st)) st))).
  { rewrite (onLine_eq _ _ _ _ _ Hrun Htok).
    change (dispatch bg "rn" (old :: new :: rest) st)
      with (renameFile bg (Some old) (Some new) st).
    unfold renameFile.
    change (resolve st (Some old)) with (Some (resolved st old)).
    change (resolve st (Some new)) with (Some (resolved st new)). cbv iota.
    rewrite await_quiescent, Hrename by done.
    change (running (console_log _ (set_fs ?f st))) with (running st).
    by rewrite Hrun. }
  rewrite Hline. cbn [out fs emit console_log set_fs].
  assert (Hgone : delete from (names (fs st)) !! to = None)
    by by rewrite lookup_delete_ne.
  assert (Hwalk : ∀ p loc, namei false (fs st) p = Some loc →
            namei false (set_names ns' (fs st)) p = Some loc).
  { intros p loc Hp. unfold namei in *. cbn [names set_names]. unfold ns'.
    apply walk_insert_file; [done|]. by apply (walk_delete_file _ _ _ _ _ _ _ i). }
  split; [by rewrite <- app_assoc|]. split; [|split; [by apply Hwalk|split; [|done]]].
  - unfold fs_lstat. rewrite (Hwalk _ from) by done. cbn [mbind option_bind].
    destruct from as [|a from]; [done|]. cbn. unfold ns'.
    by rewrite lookup_insert_ne, lookup_delete_eq.
  - destruct to as [|b to]; [done|]. cbn. unfold ns'. by rewrite lookup_insert_eq.
Qed.

(** [decompress] of a file the codec does not accept ends the process,
    with the prompt back and nothing printed, whatever the destination
    is, as long as it is not the source itself (which the write stream
    would empty before it is read). *)
Theorem decompress_of_garbage_is_fatal bg input source destination rest st content :
  running st = true → pending st = [] →
  tokenize input = ("decompress", source :: destination :: rest) →
  read_file (fs st) (resolved st source) = Some content →
  brotliDecompress content = None →
  file_ino (fs st) (resolved st destination) ≠ file_ino (fs st) (resolved st source) →
  status (settle (onLine bg input st)) = Crashed
  ∧ out (settle (onLine bg input st)) = out st ++ [Prompt].
Proof.
  intros Hrun Hq Htok Hread Hbad Hother.
  rewrite (pipe_line bg input "decompress" (source :: destination :: rest)
             (ThroughBrotli Decompress (resolved st destination)) (resolved st source))
    by done.
  apply read_file_spec in Hread as (i & Hopen_src & Hcontent).
  rewrite finish_through_brotli by done. cbn [fs emit]. rewrite Hopen_src.
  destruct (open_write (fs st) (resolved st destination)) as [[fs1 j]|] eqn:Hopen_dst;
    [|done].
  pose proof (open_read_file_ino _ _ _ Hopen_src) as (Hino_src & f & Hf & _).
  pose proof (open_write_spec _ _ _ _ Hopen_dst) as (_ & _ & Hothers & Hcase).
  assert (Hij : i ≠ j).
  { intros ->. destruct Hcase as [[Hsame _]|(_ & Hnew & _)]; congruence. }
  assert (Hsrc : read_data fs1 i = content).
  { unfold read_data in *. by rewrite Hothers. }
  rewrite Hsrc. cbn [through_brotli]. by rewrite Hbad.
Qed.
End Renaming.

(** ** Witnesses of the further properties *)

Lemma username_witness : ∃ rest, split "=" "Ann" = username :: rest.
Proof.
  apply (proj2 username_is_read_from_the_first_flag [] "Ann" []);
    [reflexivity|constructor].
Defined.

Lemma exit_witness :
  tokenize ".exit now" = (".exit", ["now"])
  ∧ out (run [([], "ls"); ([], "up")] (onLine [] ".exit now" demo))
    = out demo ++ [Log "Thank you for using File Manager, Ann, goodbye!"].
Proof.
  split; [reflexivity|].
  by destruct (exit_is_final [] ".exit now" ["now"] demo [([], "ls"); ([], "up")]
                 eq_refl eq_refl) as (_ & _ & Hout & _).
Defined.

Lemma cd_witness :
  fs_lstat (fs demo) (resolved demo "docs") = Some KDir
  ∧ fs_lstat (fs demo) (resolved demo "a.txt") ≠ Some KDir
  ∧ currentDir (onLine [] "cd docs" demo) = "/home/u/docs"
  ∧ onLine [] "cd a.txt" demo = emit Prompt (console_log "Invalid input" demo).
Proof.
  assert (Hdir : fs_lstat (fs demo) (resolved demo "docs") = Some KDir) by by vm_compute.
  assert (Hfile : fs_lstat (fs demo) (resolved demo "a.txt") ≠ Some KDir) by by vm_compute.
  split; [done|]. split; [done|]. split.
  - destruct (cd_adopts_directories_only [] "cd docs" "docs" [] demo
                eq_refl eq_refl eq_refl) as [Hyes _].
    by rewrite (Hyes Hdir).
  - by destruct (cd_adopts_directories_only [] "cd a.txt" "a.txt" [] demo
                   eq_refl eq_refl eq_refl) as [_ Hno].
Defined.

Lemma cd_then_up_witness :
  currentDir (onLine [] "up" (onLine [] "cd docs" demo)) = currentDir demo.
Proof.
  rewrite (cd_then_up_returns [] [] "cd docs" "up" "docs" [] [] demo ["home"; "u"]);
    try reflexivity.
  by repeat constructor.
Defined.

Lemma empty_argument_witness :
  tokenize "cd  docs" = ("cd", [EmptyString; "docs"])
  ∧ onLine [] "cd  docs" demo
    = emit Prompt (console_log "You are currently in /home/u" demo)
  ∧ onLine [] "rm  a.txt" demo = emit Prompt (console_log "Operation failed" demo).
Proof.
  split; [reflexivity|].
  assert (Hsegs : Forall (λ s, is_segment s = true) ["home"; "u"]) by by repeat constructor.
  assert (Hdir : fs_lstat (fs demo) (currentDir demo) = Some KDir) by by vm_compute.
  split.
  - by apply (empty_argument_is_the_current_directory [] "cd  docs" ["docs"] demo
                ["home"; "u"] eq_refl eq_refl Hsegs eq_refl Hdir).
  - by apply (empty_argument_is_the_current_directory [] "rm  a.txt" ["a.txt"] demo
                ["home"; "u"] eq_refl eq_refl Hsegs eq_refl Hdir).
Defined.

Lemma ups_witness :
  currentDir (Nat.iter 3 (onLine [] "up") demo) = "/".
Proof.
  assert (Hsegs : Forall (λ s, is_segment s = true) ["home"; "u"]) by by repeat constructor.
  by destruct (ups_climb_to_the_root [] demo ["home"; "u"] 3 eq_refl Hsegs eq_refl)
    as [-> _].
Defined.

Lemma session_witness :
  cwd_ok (run [([], "cd docs"); ([], "cd /etc/../home//u/./docs/.."); ([], "up")] demo).
Proof.
  apply (session_keeps_cwd_normalized _ demo_fs ["home"; "u"]);
    [by repeat constructor|reflexivity].
Defined.

Lemma ls_witness :
  ∃ rows,
    out (onLine [] "ls" demo) = out demo ++ [Table rows; Prompt]
    ∧ (∃ r, r ∈ rows ∧ Name r = "lnk" ∧ Type_ r = "file")
    ∧ (∃ r, r ∈ rows ∧ Name r = "docs" ∧ Type_ r = "directory").
Proof.
  assert (Hloc : namei true (fs demo) (currentDir demo) = Some ["home"; "u"])
    by by vm_compute.
  assert (Hdir : fs_stat (fs demo) (currentDir demo) = Some KDir) by by vm_compute.
  destruct (ls_lists_the_entries [] "ls" [] demo ["home"; "u"]
              eq_refl eq_refl eq_refl Hloc Hdir) as (rows & Hline & _ & Hrows).
  exists rows. split; [rewrite Hline; cbn [out emit]; by rewrite <- app_assoc|]. split.
  - apply Hrows. exists (ELink "docs"). split; [by vm_compute|done].
  - apply Hrows. exists (EDir true). split; [by vm_compute|done].
Defined.

Lemma os_witness :
  ∃ lines,
    out (onLine [] "os --cpus" demo) = out demo ++ (Log <$> lines) ++ [Prompt]
    ∧ length lines = 2.
Proof.
  destruct (os_only_prints [] "os --cpus" ["--cpus"] demo eq_refl eq_refl)
    as (lines & _ & Hline & Hcpus & _).
  exists lines. split.
  - rewrite Hline. cbn [out emit]. by rewrite <- app_assoc.
  - by destruct (Hcpus eq_refl) as [_ ->].
Defined.

Lemma cat_witness :
  read_file (fs demo) (resolved demo "a.txt") = Some [x68; x69]
  ∧ stdout_of (out (settle (onLine [] "cat a.txt" demo))) = [x68; x69].
Proof.
  assert (Hread : read_file (fs demo) (resolved demo "a.txt") = Some [x68; x69])
    by by vm_compute.
  split; [done|].
  pose proof (cat_streams_the_file [] "cat a.txt" "a.txt" [] demo
                eq_refl eq_refl eq_refl) as Hcat.
  rewrite Hread in Hcat. by destruct (Hcat eq_refl) as (chunks & _ & _ & _ & ->).
Defined.

Lemma add_then_cat_witness :
  out (settle (onLine [] "cat new.txt" (onLine [] "add new.txt" demo)))
  = out demo ++ [Log "File created"; Prompt; Prompt].
Proof.
  apply (add_then_cat_prints_nothing [] [] "add new.txt" "cat new.txt" "new.txt" [] [] demo);
    try reflexivity.
  exists ["home"; "u"; "new.txt"]. by vm_compute.
Defined.

Lemma cp_witness :
  f_data <$> file_at (fs (settle (onLine [] "cp a.txt b.txt" demo))) (resolved demo "b.txt")
  = Some [x68; x69].
Proof.
  assert (Hread : read_file (fs demo) (resolved demo "a.txt") = Some [x68; x69])
    by by vm_compute.
  assert (Hother : file_ino (fs demo) (resolved demo "b.txt")
                   ≠ file_ino (fs demo) (resolved demo "a.txt")) by by vm_compute.
  assert (Hnew : creatable (fs demo) (resolved demo "b.txt")).
  { exists ["home"; "u"; "b.txt"]. by vm_compute. }
  by destruct (cp_copies_the_content [] "cp a.txt b.txt" "a.txt" "b.txt" [] demo [x68; x69]
                 eq_refl eq_refl eq_refl Hread Hother (or_intror Hnew)) as (_ & Hdst & _).
Defined.

Lemma cp_onto_itself_witness :
  f_data <$> file_at (fs demo) (resolved demo "a.txt") = Some [x68; x69]
  ∧ f_data <$> file_at (fs (settle (onLine [] "cp a.txt a.txt" demo))) (resolved demo "a.txt")
    = Some [].
Proof.
  assert (Hfile : file_at (fs demo) (resolved demo "a.txt") = Some (File [x68; x69] true true))
    by by vm_compute.
  split; [by rewrite Hfile|].
  by destruct (cp_onto_itself_empties_the_file [] "cp a.txt a.txt" "a.txt" "a.txt" [] demo
                 (File [x68; x69] true true) eq_refl eq_refl eq_refl Hfile
                 eq_refl eq_refl eq_refl) as [_ Hempty].
Defined.

Lemma cp_of_nothing_witness :
  out (settle (onLine [] "cp nope.txt a.txt" demo)) = out demo ++ [Prompt; Log "Operation failed"]
  ∧ f_data <$> file_at (fs (settle (onLine [] "cp nope.txt a.txt" demo))) (resolved demo "a.txt")
    = Some [].
Proof.
  assert (Hmissing : fs_stat (fs demo) (resolved demo "nope.txt") = None) by by vm_compute.
  assert (Hfile : ∃ f, file_at (fs demo) (resolved demo "a.txt") = Some f
                       ∧ f_writable f = true).
  { exists (File [x68; x69] true true). by vm_compute. }
  exact (cp_of_nothing_empties_the_destination [] "cp nope.txt a.txt" "nope.txt" "a.txt"
           [] demo eq_refl eq_refl eq_refl Hmissing (or_introl Hfile)).
Defined.

Lemma brotli_of_nothing_witness :
  status (settle (onLine [] "compress nope.txt a.z" demo)) = Crashed.
Proof.
  assert (Hmissing : fs_stat (fs demo) (resolved demo "nope.txt") = None) by by vm_compute.
  by destruct (brotli_of_nothing_is_fatal [] "compress nope.txt a.z" "compress" "nope.txt"
                 "a.z" [] demo eq_refl eq_refl (or_introl eq_refl) eq_refl Hmissing)
    as [Hcrash _].
Defined.

Lemma decompress_of_garbage_witness :
  status (settle (onLine [] "decompress a.txt b.txt" demo)) = Crashed.
Proof.
  assert (Hread : read_file (fs demo) (resolved demo "a.txt") = Some [x68; x69])
    by by vm_compute.
  assert (Hother : file_ino (fs demo) (resolved demo "b.txt")
                   ≠ file_ino (fs demo) (resolved demo "a.txt")) by by vm_compute.
  by destruct (decompress_of_garbage_is_fatal [] "decompress a.txt b.txt" "a.txt" "b.txt"
                 [] demo [x68; x69] eq_refl eq_refl eq_refl Hread eq_refl Hother)
    as [Hcrash _].
Defined.

Lemma rm_witness :
  fs_lstat (fs demo) (resolved demo "lnk") = Some KLink
  ∧ fs_lstat (fs (onLine [] "rm lnk" demo)) (resolved demo "lnk") = None
  ∧ names (fs (onLine [] "rm lnk" demo)) !! ["home"; "u"; "docs"] = Some (EDir true).
Proof.
  assert (Hloc : namei false (fs demo) (resolved demo "lnk") = Some ["home"; "u"; "lnk"])
    by by vm_compute.
  assert (Hent : entry_at (fs demo) ["home"; "u"; "lnk"] = Some (ELink "docs"))
    by by vm_compute.
  assert (Hdir : dir_writable (fs demo) (removelast ["home"; "u"; "lnk"]) = true)
    by by vm_compute.
  assert (Hkind : kind_of (ELink "docs") ≠ KDir) by done.
  destruct (rm_removes_the_name [] "rm lnk" "lnk" [] demo ["home"; "u"; "lnk"] (ELink "docs")
              eq_refl eq_refl eq_refl Hloc Hent Hkind Hdir) as (_ & Hgone & Hothers & _).
  split; [by vm_compute|]. split; [done|].
  by rewrite Hothers.
Defined.

Lemma add_then_rm_witness :
  names (fs (onLine [] "rm new.txt" (onLine [] "add new.txt" demo))) = names (fs demo).
Proof.
  assert (Hnew : creatable (fs demo) (resolved demo "new.txt")).
  { exists ["home"; "u"; "new.txt"]. by vm_compute. }
  assert (Hnone : fs_lstat (fs demo) (resolved demo "new.txt") = None) by by vm_compute.
  by destruct (add_then_rm_restores_the_names [] [] "add new.txt" "rm new.txt" "new.txt"
                 [] [] demo eq_refl eq_refl eq_refl eq_refl Hnew Hnone) as (_ & Hnames & _).
Defined.

Lemma reading_witness :
  fs (settle (onLine [] "hash a.txt" demo)) = fs demo
  ∧ fs (settle (onLine [] "cat docs" demo)) = fs demo.
Proof.
  assert (Hhash : (tokenize "hash a.txt").1
                  ∉ ["add"; "rn"; "cp"; "mv"; "rm"; "compress"; "decompress"]).
  { change (tokenize "hash a.txt").1 with "hash". intros Hin.
    repeat (apply elem_of_cons in Hin as [Heq|Hin]; [discriminate|]).
    by apply elem_of_nil in Hin. }
  assert (Hcat : (tokenize "cat docs").1
                 ∉ ["add"; "rn"; "cp"; "mv"; "rm"; "compress"; "decompress"]).
  { change (tokenize "cat docs").1 with "cat". intros Hin.
    repeat (apply elem_of_cons in Hin as [Heq|Hin]; [discriminate|]).
    by apply elem_of_nil in Hin. }
  split.
  - by destruct (reading_commands_keep_the_filesystem [] "hash a.txt" demo
                   eq_refl eq_refl Hhash) as [_ Hfs].
  - by destruct (reading_commands_keep_the_filesystem [] "cat docs" demo
                   eq_refl eq_refl Hcat) as [_ Hfs].
Defined.

Lemma rn_witness :
  fs_lstat (fs (onLine [] "rn a.txt b.txt" demo)) (resolved demo "a.txt") = None
  ∧ entry_at (fs (onLine [] "rn a.txt b.txt" demo)) ["home"; "u"; "b.txt"] = Some (EFile 1).
Proof.
  assert (Hfrom : namei false (fs demo) (resolved demo "a.txt") = Some ["home"; "u"; "a.txt"])
    by by vm_compute.
  assert (Hsrc : entry_at (fs demo) ["home"; "u"; "a.txt"] = Some (EFile 1))
    by by vm_compute.
  assert (Hto : namei false (fs demo) (resolved demo "b.txt") = Some ["home"; "u"; "b.txt"])
    by by vm_compute.
  assert (Hdst : entry_at (fs demo) ["home"; "u"; "b.txt"] = None) by by vm_compute.
  assert (Hw : dir_writable (fs demo) ["home"; "u"] = true) by by vm_compute.
  by destruct (rn_moves_a_file [] "rn a.txt b.txt" "a.txt" "b.txt" [] demo
                 ["home"; "u"; "a.txt"] ["home"; "u"; "b.txt"] 1
                 eq_refl eq_refl eq_refl Hfrom Hsrc Hto Hdst Hw Hw) as (_ & Hold & _ & Hnew & _).
Defined.

